(** * A shallow embedding of dynamodb-expression-rs

    Path/Element parsing and display (src/path/mod.rs), the Display impls of
    the condition and update ASTs (src/condition/*.rs, src/update/set/math.rs),
    and the Expression compiler with its substitution table.

    Rust strings are byte strings here: [str] is [list ascii] (an [ascii] is
    eight bits, so one byte).  The separators the parser looks for ('.', '[',
    ']') are one-byte UTF-8 characters, so byte positions are what
    [str::find] returns. *)

From Stdlib Require Import List Ascii String NArith ZArith QArith Lia Bool.
Import ListNotations.

Open Scope nat_scope.
Open Scope list_scope.

Definition str := list ascii.

(** String literals of the examples, as byte lists. *)
Definition lit (s : string) : str := list_ascii_of_string s.

(** ** Decimal digits *)

Definition to_digit (c : ascii) : option Z :=
  let n := Z.of_nat (nat_of_ascii c) in
  if (48 <=? n)%Z && (n <=? 57)%Z then Some (n - 48)%Z else None.

Definition digit_char (d : N) : ascii := ascii_of_N (48 + d).

(** Decimal rendering of a non-negative number, as [write!("{}", n)] does
    (no leading zeros, "0" for zero).  [fuel] is the largest digit count of
    the Rust type: 10 for [u32], 20 for [usize]. *)
Fixpoint dec_aux (fuel : nat) (n : N) (acc : str) : str :=
  match fuel with
  | O => acc
  | S f =>
      let acc' := digit_char (n mod 10) :: acc in
      if (n <? 10)%N then acc' else dec_aux f (n / 10) acc'
  end.

Definition u32_to_str (n : Z) : str := dec_aux 10 (Z.to_N n) [].

Definition usize_to_str (n : nat) : str := dec_aux 20 (N.of_nat n) [].

Definition U32_MAX : Z := 4294967295.

(** [<u32 as FromStr>::from_str]: an optional '+', then one or more decimal
    digits, with a checked multiply-add at every digit. *)
Fixpoint u32_digits (s : str) (acc : Z) : option Z :=
  match s with
  | [] => Some acc
  | c :: r =>
      match to_digit c with
      | None => None
      | Some d =>
          let acc' := (acc * 10 + d)%Z in
          if (U32_MAX <? acc')%Z then None else u32_digits r acc'
      end
  end.

Definition parse_u32 (s : str) : option Z :=
  match s with
  | [] => None
  | c :: rest =>
      let digits := if Ascii.eqb c "+"%char then rest else s in
      match digits with
      | [] => None
      | _ => u32_digits digits 0
      end
  end.

(** ** The data model of src/path/mod.rs *)

(** [Name] (src/name.rs) is not under src/.  Modelled from the spec: a
    [Name] wraps the attribute name text; its [Display] writes that text. *)
Record Name := mkName { name : str }.

Record IndexedField := mkIndexedField { if_name : Name; indexes : list Z }.

Inductive Element :=
| EName (n : Name)
| EIndexedField (f : IndexedField).

Record Path := mkPath { path : list Element }.

Inductive PathParseError := PathParseErr.

Inductive result (A E : Type) :=
| Ok (a : A)
| Err (e : E).
Arguments Ok {A E} a.
Arguments Err {A E} e.

(** ** Constructors *)

(** [Element::name] *)
Definition element_name (n : Name) : Element := EName n.

(** [Element::indexed_field]; [ix] is [indexes.into_indexes()]. *)
Definition element_indexed_field (n : Name) (ix : list Z) : Element :=
  match ix with
  | [] => element_name n
  | _ => EIndexedField (mkIndexedField n ix)
  end.

(** [impl From<IndexedField> for Element] *)
Definition element_from_indexed_field (v : IndexedField) : Element :=
  match indexes v with
  | [] => EName (if_name v)
  | _ => EIndexedField v
  end.

(** [impl From<(N, P)> for IndexedField] (no canonicalisation here) *)
Definition indexed_field_from_tuple (n : Name) (ix : list Z) : IndexedField :=
  mkIndexedField n ix.

(** [impl From<(N, P)> for Element] *)
Definition element_from_tuple (n : Name) (ix : list Z) : Element :=
  match ix with
  | [] => EName n
  | _ => EIndexedField (indexed_field_from_tuple n ix)
  end.

(** [impl<T: Into<Element>> From<T> for Path] *)
Definition path_from (e : Element) : Path := mkPath [e].

(** [impl<T: Into<Element>> FromIterator<T> for Path]; the items are given
    already converted by [Into::into]. *)
Definition path_from_iter (items : list Element) : Path := mkPath (map (fun e => e) items).

(** ** Parsing *)

(** [str::find] for a one-byte character: the byte index of its first
    occurrence. *)
Fixpoint find (c : ascii) (s : str) : option nat :=
  match s with
  | [] => None
  | x :: r => if Ascii.eqb x c then Some 0 else option_map S (find c r)
  end.

(** [str::split('.')]: always at least one piece. *)
Fixpoint split_dot (s : str) : list str :=
  match s with
  | [] => [[]]
  | c :: r =>
      let parts := split_dot r in
      if Ascii.eqb c "."%char then [] :: parts
      else match parts with
           | p :: ps => (c :: p) :: ps
           | [] => [[c]]
           end
  end.

(** The [while !remaining.is_empty()] loop of [Element::from_str], with its
    state [(remaining, name, indexes)].  Every iteration that continues
    consumes at least one byte, so [length input] iterations suffice. *)
Fixpoint parse_loop (fuel : nat) (remaining : str) (nm : option str) (idx : list Z)
  : result (str * option str * list Z) PathParseError :=
  match remaining with
  | [] => Ok (remaining, nm, idx)
  | _ :: _ =>
    match fuel with
    | O => Err PathParseErr
    | S fuel' =>
      match find "["%char remaining, find "]"%char remaining with
      | None, None =>
          match nm with
          | Some _ => Err PathParseErr          (* `bar` in `foo[0]bar` *)
          | None => Ok ([], Some remaining, idx) (* consume the rest; break *)
          end
      | None, Some _ => Err PathParseErr
      | Some _, None => Err PathParseErr
      | Some open, Some close =>
          if Nat.leb close open then Err PathParseErr  (* `foo][` *)
          else
            let nm' :=
              match nm with
              | None => if Nat.ltb 0 open then Ok (Some (firstn open remaining))
                        else Err PathParseErr          (* starts with '[' *)
              | Some n => if Nat.ltb 0 open then Err PathParseErr
                          else Ok (Some n)
              end in
            match nm' with
            | Err e => Err e
            | Ok nm'' =>
                match parse_u32 (firstn (close - S open) (skipn (S open) remaining)) with
                | None => Err PathParseErr
                | Some index =>
                    parse_loop fuel' (skipn (S close) remaining) nm'' (idx ++ [index])
                end
            end
      end
    end
  end.

(** [impl FromStr for Element] *)
Definition element_from_str (input : str) : result Element PathParseError :=
  match parse_loop (List.length input) input None [] with
  | Err e => Err e
  | Ok (remaining, nm, idx) =>
      match idx with
      | [] => Ok (EName (mkName input))
      | _ :: _ =>
          match remaining with
          | _ :: _ => Err PathParseErr
          | [] =>
              match nm with
              | None => Err PathParseErr
              | Some n => Ok (EIndexedField (mkIndexedField (mkName n) idx))
              end
          end
      end
  end.

(** [Iterator::try_collect] of the parsed pieces. *)
Fixpoint try_collect (ps : list str) : result (list Element) PathParseError :=
  match ps with
  | [] => Ok []
  | p :: rest =>
      match element_from_str p with
      | Err e => Err e
      | Ok e =>
          match try_collect rest with
          | Err e' => Err e'
          | Ok es => Ok (e :: es)
          end
      end
  end.

(** [impl FromStr for Path] *)
Definition path_from_str (s : str) : result Path PathParseError :=
  match try_collect (split_dot s) with
  | Err e => Err e
  | Ok es => Ok (mkPath es)
  end.

(** ** Values and operands *)

(** [Value] (src/value/) is not under src/.  Modelled from the spec: the
    scalar literals (the collection variants play no part here); numbers are
    exact rationals, so no floating point is involved. *)
Inductive Value :=
| VString (s : str)
| VNum (q : Q)
| VBool (b : bool)
| VNull.

(** Modelled from the spec: structural equality of values, numbers compared
    numerically (equal decimals share one token). *)
Definition value_eqb (a b : Value) : bool :=
  match a, b with
  | VString x, VString y => if list_eq_dec ascii_dec x y then true else false
  | VNum x, VNum y => Qeq_bool x y
  | VBool x, VBool y => Bool.eqb x y
  | VNull, VNull => true
  | _, _ => false
  end.

(** Modelled from the spec: [ValueOrRef], a literal or a caller-supplied
    reference.  tests/simple.rs fixes the text of a reference: [ref_value("0")]
    is written as [:0]. *)
Inductive ValueOrRef :=
| Val (v : Value)
| Ref (r : str).

(** Modelled from the spec: [Operand] (src/operand/ is not under src/). *)
Inductive Operand :=
| OPath (p : Path)
| OValue (v : ValueOrRef)
| OSize (p : Path).

(** ** Rendering

    A [Display] impl is a sequence of writes to a [fmt::Formatter].  We
    record that sequence as a list of pieces: literal text, and the two kinds
    of leaf whose text depends on the context in which the AST is rendered --
    an attribute name ([Name::fmt]) and a value ([ValueOrRef::fmt]).  A plain
    [to_string] writes names and references as they are; the [Expression]
    compiler writes placeholder tokens for them. *)
Inductive Piece :=
| PText (s : str)
| PName (n : Name)
| PValue (v : ValueOrRef).

(** The [first] flag loop of [Path::fmt] and [In::fmt]: [sep] before every
    item but the first. *)
Fixpoint write_sep (first : bool) (sep : str) (items : list (list Piece)) : list Piece :=
  match items with
  | [] => []
  | it :: rest => (if first then [] else [PText sep]) ++ it ++ write_sep false sep rest
  end.

(** [impl Display for IndexedField] *)
Definition fmt_indexed_field (f : IndexedField) : list Piece :=
  PName (if_name f)
    :: map (fun index => PText (lit "[" ++ u32_to_str index ++ lit "]")) (indexes f).

(** [impl Display for Element] *)
Definition fmt_element (e : Element) : list Piece :=
  match e with
  | EName n => [PName n]
  | EIndexedField f => fmt_indexed_field f
  end.

(** [impl Display for Path] *)
Definition fmt_path (p : Path) : list Piece :=
  write_sep true (lit ".") (map fmt_element (path p)).

(** Modelled from the spec: [Operand]'s [Display]; [Size] is [size(path)]. *)
Definition fmt_operand (o : Operand) : list Piece :=
  match o with
  | OPath p => fmt_path p
  | OValue v => [PValue v]
  | OSize p => [PText (lit "size(")] ++ fmt_path p ++ [PText (lit ")")]
  end.

(** src/condition/comparison.rs *)
Inductive Comparator := Eq | Ne | Lt | Le | Gt | Ge.

Definition comparator_as_str (c : Comparator) : str :=
  match c with
  | Eq => lit "="
  | Ne => lit "<>"
  | Lt => lit "<"
  | Le => lit "<="
  | Gt => lit ">"
  | Ge => lit ">="
  end.

Record Comparison := mkComparison { left : Operand; cmp : Comparator; right : Operand }.

(** [impl Display for Comparison]: [write!(f, "{left} {cmp} {right}")] *)
Definition fmt_comparison (c : Comparison) : list Piece :=
  fmt_operand (left c) ++ [PText (lit " "); PText (comparator_as_str (cmp c)); PText (lit " ")]
    ++ fmt_operand (right c).

Definition equal (l r : Operand) : Comparison := mkComparison l Eq r.
Definition greater_than_or_equal (l r : Operand) : Comparison := mkComparison l Ge r.

(** src/condition/in_.rs: [struct In] ([In] is taken by list membership) *)
Record In_ := mkIn { in_op : Operand; items : list Operand }.

(** [impl Display for In] *)
Definition fmt_in (i : In_) : list Piece :=
  fmt_operand (in_op i) ++ [PText (lit " IN (")]
    ++ write_sep true (lit ",") (map fmt_operand (items i)) ++ [PText (lit ")")].

(** src/condition/attribute_exists.rs *)
Record AttributeExists := mkAttributeExists { ae_path : Path }.

(** [impl Display for AttributeExists] *)
Definition fmt_attribute_exists (a : AttributeExists) : list Piece :=
  [PText (lit "attribute_exists(")] ++ fmt_path (ae_path a) ++ [PText (lit ")")].

(** Modelled from the spec: [Condition] (src/condition/mod.rs is not under
    src/), with the variants of the spec's data model. *)
Inductive Condition :=
| CComparison (c : Comparison)
| CBetween (op lower upper : Operand)
| CIn (i : In_)
| CAttributeExists (a : AttributeExists)
| CAttributeNotExists (p : Path)
| CBeginsWith (p : Path) (prefix : ValueOrRef)
| CContains (p : Path) (o : Operand)
| CAttributeType (p : Path) (t : ValueOrRef)
| CAnd (l r : Condition)
| COr (l r : Condition)
| CNot (c : Condition).

(** Modelled from the spec: [Condition]'s [Display], after §4.2.  For [And]
    the spec's §8 example and the assertion of tests/simple.rs ([query]:
    [attribute_exists(#0).and(#1 >= :0)] displays as
    [attribute_exists(#0) AND #1 >= :0]) fix [{left} AND {right}]; every other
    variant follows the text of §4.2. *)
Fixpoint fmt_condition (c : Condition) : list Piece :=
  match c with
  | CComparison x => fmt_comparison x
  | CBetween o l u =>
      fmt_operand o ++ [PText (lit " BETWEEN ")] ++ fmt_operand l
        ++ [PText (lit " AND ")] ++ fmt_operand u
  | CIn i => fmt_in i
  | CAttributeExists a => fmt_attribute_exists a
  | CAttributeNotExists p => [PText (lit "attribute_not_exists(")] ++ fmt_path p ++ [PText (lit ")")]
  | CBeginsWith p v =>
      [PText (lit "begins_with(")] ++ fmt_path p ++ [PText (lit ", "); PValue v; PText (lit ")")]
  | CContains p o =>
      [PText (lit "contains(")] ++ fmt_path p ++ [PText (lit ", ")] ++ fmt_operand o ++ [PText (lit ")")]
  | CAttributeType p t =>
      [PText (lit "attribute_type(")] ++ fmt_path p ++ [PText (lit ", "); PValue t; PText (lit ")")]
  | CAnd l r => fmt_condition l ++ [PText (lit " AND ")] ++ fmt_condition r
  | COr l r =>
      [PText (lit "(")] ++ fmt_condition l ++ [PText (lit ") OR (")] ++ fmt_condition r
        ++ [PText (lit ")")]
  | CNot x => [PText (lit "NOT (")] ++ fmt_condition x ++ [PText (lit ")")]
  end.

(** src/key.rs: [KeyCondition] and its [Display] (delegates to the condition). *)
Record KeyCondition := mkKeyCondition { kc_condition : Condition }.

Definition fmt_key_condition (k : KeyCondition) : list Piece := fmt_condition (kc_condition k).

(** [Key::equal] *)
Definition key_equal (p : Path) (r : Operand) : KeyCondition :=
  mkKeyCondition (CComparison (equal (OPath p) r)).

(** ** Update actions: src/update/set/math.rs *)

Inductive MathOp := Add | Sub.

(** [impl Display for MathOp] *)
Definition fmt_math_op (op : MathOp) : str :=
  match op with
  | Add => lit "+"
  | Sub => lit "-"
  end.

Record Math := mkMath { m_dst : Path; m_src : option Path; m_op : MathOp; m_num : ValueOrRef }.

(** [impl Display for Math]: [write!(f, "{dst} = {src} {op} {num}")] with
    [src] defaulting to [dst]. *)
Definition fmt_math (m : Math) : list Piece :=
  let src := match m_src m with Some s => s | None => m_dst m end in
  fmt_path (m_dst m) ++ [PText (lit " = ")] ++ fmt_path src
    ++ [PText (lit " "); PText (fmt_math_op (m_op m)); PText (lit " "); PValue (m_num m)].

Record Builder := mkBuilder { b_dst : Path; b_src : option Path }.

(** [Math::builder] *)
Definition math_builder (dst : Path) : Builder := mkBuilder dst None.

(** [Builder::src] *)
Definition builder_src (b : Builder) (src : Path) : Builder := mkBuilder (b_dst b) (Some src).

(** [Builder::with_op]; the number goes through [Num] into [ValueOrRef]. *)
Definition with_op (b : Builder) (op : MathOp) (num : Q) : Math :=
  mkMath (b_dst b) (b_src b) op (Val (VNum num)).

(** [Builder::add] *)
Definition builder_add (b : Builder) (num : Q) : Math := with_op b Add num.

(** [Builder::sub] *)
Definition builder_sub (b : Builder) (num : Q) : Math := with_op b Sub num.

(** Modelled from the spec: the other SET actions and the update clauses
    (src/update/ apart from set/math.rs is not under src/), after §3/§4.3. *)
Inductive ListPosition := Before | After.

Inductive SetAction :=
| Assign (dst : Path) (value : Operand)
| SMath (m : Math)
| ListAppend (dst : Path) (src : option Path) (pos : ListPosition) (list : ValueOrRef)
| IfNotExists (dst : Path) (src : option Path) (default : Operand).

Definition fmt_set_action (a : SetAction) : list Piece :=
  match a with
  | Assign dst v => fmt_path dst ++ [PText (lit " = ")] ++ fmt_operand v
  | SMath m => fmt_math m
  | ListAppend dst src pos l =>
      let s := match src with Some s => s | None => dst end in
      fmt_path dst ++ [PText (lit " = list_append(")]
        ++ match pos with
           | Before => [PValue l; PText (lit ", ")] ++ fmt_path s
           | After => fmt_path s ++ [PText (lit ", "); PValue l]
           end
        ++ [PText (lit ")")]
  | IfNotExists dst src d =>
      let s := match src with Some s => s | None => dst end in
      fmt_path dst ++ [PText (lit " = if_not_exists(")] ++ fmt_path s
        ++ [PText (lit ", ")] ++ fmt_operand d ++ [PText (lit ")")]
  end.

Record Update := mkUpdate {
  u_set : list SetAction;
  u_remove : list Path;
  u_add : list (Path * ValueOrRef);
  u_delete : list (Path * ValueOrRef) }.

Definition fmt_pair (pv : Path * ValueOrRef) : list Piece :=
  fmt_path (fst pv) ++ [PText (lit " "); PValue (snd pv)].

(** One clause [KEYWORD a, b, ...], or nothing when there is no action. *)
Definition fmt_clause (kw : str) (actions : list (list Piece)) : list (list Piece) :=
  match actions with
  | [] => []
  | _ => [PText (kw ++ lit " ") :: write_sep true (lit ", ") actions]
  end.

Definition fmt_update (u : Update) : list Piece :=
  write_sep true (lit " ")
    (fmt_clause (lit "SET") (map fmt_set_action (u_set u))
     ++ fmt_clause (lit "REMOVE") (map fmt_path (u_remove u))
     ++ fmt_clause (lit "ADD") (map fmt_pair (u_add u))
     ++ fmt_clause (lit "DELETE") (map fmt_pair (u_delete u))).

(** Modelled from the spec: a projection is its paths joined by [", "]. *)
Definition fmt_projection (ps : list Path) : list Piece :=
  write_sep true (lit ", ") (map fmt_path ps).

(** ** [to_string]: writing the pieces to a [String] *)

(** The text of one write when the AST is displayed on its own: names and
    references as they are ([Ref r] is [:r]), literal values as [vfmt]
    (the [Display] of [Value] is not under src/, so it is left open). *)
Definition display_piece (vfmt : Value -> str) (p : Piece) : str :=
  match p with
  | PText s => s
  | PName n => name n
  | PValue (Ref r) => lit ":" ++ r
  | PValue (Val v) => vfmt v
  end.

(** A [fmt::Formatter] over an underlying [fmt::Write] sink [W]: every write
    may fail with [fmt::Error], and each impl propagates it with [?]. *)
Fixpoint fmt_run (W : str -> str -> option str) (vfmt : Value -> str)
    (ps : list Piece) (out : str) : option str :=
  match ps with
  | [] => Some out
  | p :: rest =>
      match W out (display_piece vfmt p) with
      | None => None
      | Some out' => fmt_run W vfmt rest out'
      end
  end.

(** [impl fmt::Write for String]: appending never fails. *)
Definition string_sink (out s : str) : option str := Some (out ++ s).

(** [ToString::to_string] ([None] where it would panic on [fmt::Error]). *)
Definition to_string (vfmt : Value -> str) (ps : list Piece) : option str :=
  fmt_run string_sink vfmt ps [].

(** The text the pieces spell out. *)
Definition display (vfmt : Value -> str) (ps : list Piece) : str :=
  List.concat (map (display_piece vfmt) ps).

(** A [Path]'s text: it has no value leaf, so [vfmt] plays no part. *)
Definition path_to_string (p : Path) : str := display (fun _ => []) (fmt_path p).

(** ** The substitution table and the [Expression] compiler

    src/expression.rs is not under src/.  Modelled from the spec (§3, §4.4,
    §4.5): a fresh table per compilation; a name or value gets the next
    token on first use and its old token afterwards; the clauses are
    rendered in the order condition/filter, key condition, projection,
    update. *)

Definition name_eqb (a b : Name) : bool :=
  if list_eq_dec ascii_dec (name a) (name b) then true else false.

Fixpoint index_of {A} (eqb : A -> A -> bool) (x : A) (l : list A) : option nat :=
  match l with
  | [] => None
  | y :: r => if eqb x y then Some 0 else option_map S (index_of eqb x r)
  end.

(** Append-if-absent: the token of [x] and the grown table. *)
Definition token_of {A} (eqb : A -> A -> bool) (x : A) (tbl : list A) : nat * list A :=
  match index_of eqb x tbl with
  | Some i => (i, tbl)
  | None => (List.length tbl, tbl ++ [x])
  end.

Record Table := mkTable { t_names : list Name; t_values : list Value }.

Definition empty_table : Table := mkTable [] [].

(** [name_token] *)
Definition name_token (n : Name) (t : Table) : nat * Table :=
  let (i, ns) := token_of name_eqb n (t_names t) in (i, mkTable ns (t_values t)).

(** [value_token] *)
Definition value_token (v : Value) (t : Table) : nat * Table :=
  let (i, vs) := token_of value_eqb v (t_values t) in (i, mkTable (t_names t) vs).

Definition name_tok (i : nat) : str := lit "#" ++ usize_to_str i.
Definition value_tok (i : nat) : str := lit ":" ++ usize_to_str i.

(** One write of a clause rendered against the table. *)
Definition render_piece (p : Piece) (t : Table) : str * Table :=
  match p with
  | PText s => (s, t)
  | PName n => let (i, t') := name_token n t in (name_tok i, t')
  | PValue (Ref r) => (lit ":" ++ r, t)
  | PValue (Val v) => let (i, t') := value_token v t in (value_tok i, t')
  end.

Fixpoint render_pieces (ps : list Piece) (t : Table) : str * Table :=
  match ps with
  | [] => ([], t)
  | p :: rest =>
      let (s, t1) := render_piece p t in
      let (s', t2) := render_pieces rest t1 in
      (s ++ s', t2)
  end.

Definition render_opt (ps : option (list Piece)) (t : Table) : option str * Table :=
  match ps with
  | None => (None, t)
  | Some ps => let (s, t') := render_pieces ps t in (Some s, t')
  end.

Inductive ConditionSlot := AsCondition | AsFilter.

Record Expression := mkExpression {
  e_condition : option (ConditionSlot * Condition);
  e_key_condition : option KeyCondition;
  e_projection : option (list Path);
  e_update : option Update }.

Record Compiled := mkCompiled {
  o_condition : option str;
  o_filter : option str;
  o_key_condition : option str;
  o_projection : option str;
  o_update : option str;
  o_names : list (str * Name);
  o_values : list (str * Value) }.

(** The clauses' pieces, in rendering order. *)
Definition clause_pieces (e : Expression) : list (option (list Piece)) :=
  [option_map (fun sc => fmt_condition (snd sc)) (e_condition e);
   option_map fmt_key_condition (e_key_condition e);
   option_map fmt_projection (e_projection e);
   option_map fmt_update (e_update e)].

Definition numbered {A} (tok : nat -> str) (xs : list A) : list (str * A) :=
  combine (map tok (seq 0 (List.length xs))) xs.

Definition compile (e : Expression) : Compiled :=
  let t0 := empty_table in
  let (c, t1) := render_opt (option_map (fun sc => fmt_condition (snd sc)) (e_condition e)) t0 in
  let (k, t2) := render_opt (option_map fmt_key_condition (e_key_condition e)) t1 in
  let (pr, t3) := render_opt (option_map fmt_projection (e_projection e)) t2 in
  let (u, t4) := render_opt (option_map fmt_update (e_update e)) t3 in
  let slot := option_map fst (e_condition e) in
  mkCompiled
    (match slot with Some AsCondition => c | _ => None end)
    (match slot with Some AsFilter => c | _ => None end)
    k pr u
    (numbered name_tok (t_names t4))
    (numbered value_tok (t_values t4)).

(** ** Notions the claims are stated with *)

(** An [Element] is canonical when an indexed field has at least one index. *)
Definition elem_canonical (e : Element) : Prop :=
  match e with
  | EName _ => True
  | EIndexedField f => indexes f <> []
  end.

Definition no_brackets (s : str) : Prop := ~ In "["%char s /\ ~ In "]"%char s.

(** One bracketed index as it appears in a path text. *)
Definition bracket (t : str) : str := "["%char :: t ++ ["]"%char].

(** The grammar of one dot-separated segment that [Element::from_str]
    accepts: a bracket-free name (possibly empty), or a non-empty
    bracket-free name followed by one or more bracketed texts that Rust's
    [u32] parser accepts. *)
Inductive segment_ok : str -> Prop :=
| seg_plain s : no_brackets s -> segment_ok s
| seg_indexed n ts :
    n <> [] -> no_brackets n -> ts <> [] ->
    Forall (fun t => exists v, parse_u32 t = Some v) ts ->
    segment_ok (n ++ List.concat (map bracket ts)).

Definition is_digit (c : ascii) : bool :=
  match to_digit c with Some _ => true | None => false end.

(** The value of a string of decimal digits, without any bound. *)
Definition dec_value (d : str) : Z :=
  fold_left (fun acc c => (acc * 10 + (Z.of_nat (nat_of_ascii c) - 48))%Z) d 0%Z.

(** The names and the literal values met while writing pieces, in order. *)
Definition piece_names (ps : list Piece) : list Name :=
  flat_map (fun p => match p with PName n => [n] | _ => [] end) ps.

Definition piece_values (ps : list Piece) : list Value :=
  flat_map (fun p => match p with PValue (Val v) => [v] | _ => [] end) ps.

(** The distinct elements of [xs] in the order of their first occurrence. *)
Definition first_uses {A} (eqb : A -> A -> bool) (xs : list A) : list A :=
  fold_left (fun acc x => if existsb (eqb x) acc then acc else acc ++ [x]) xs [].

(** All the pieces of an expression's clauses, in rendering order. *)
Definition expr_pieces (e : Expression) : list Piece :=
  flat_map (fun o => match o with Some ps => ps | None => [] end) (clause_pieces e).

Definition p_of (s : string) : Path := path_from (EName (mkName (lit s))).

(** The query of tests/simple.rs: filter [attribute_exists(name) AND
    age >= 2.5], projection [name, age], key condition [id = 42]. *)
Definition query_expr : Expression :=
  mkExpression
    (Some (AsFilter,
           CAnd (CAttributeExists (mkAttributeExists (p_of "name")))
                (CComparison (greater_than_or_equal (OPath (p_of "age"))
                                                    (OValue (Val (VNum (5 # 2)))))))) 
    (Some (key_equal (p_of "id") (OValue (Val (VNum (42 # 1))))))
    (Some [p_of "name"; p_of "age"])
    None.

(** The second filter of tests/simple.rs, written with references. *)
Definition query_filter_refs : Condition :=
  CAnd (CAttributeExists (mkAttributeExists (p_of "#0")))
       (CComparison (greater_than_or_equal (OPath (p_of "#1")) (OValue (Ref (lit "0"))))).

(** ** The other comparisons and [Key] (src/condition/comparison.rs, src/key.rs) *)

Definition not_equal (l r : Operand) : Comparison := mkComparison l Ne r.
Definition less_than (l r : Operand) : Comparison := mkComparison l Lt r.
Definition less_than_or_equal (l r : Operand) : Comparison := mkComparison l Le r.
Definition greater_than (l r : Operand) : Comparison := mkComparison l Gt r.

Record Key := mkKey { key_path : Path }.

(** [impl From<T: Into<Path>> for Key] and [key] *)
Definition key (p : Path) : Key := mkKey p.

(** The comparison methods of [Key]; [Comparison] goes into [Condition] as
    its comparison variant. *)
Definition Key_equal (k : Key) (r : Operand) : KeyCondition :=
  mkKeyCondition (CComparison (equal (OPath (key_path k)) r)).
Definition Key_greater_than (k : Key) (r : Operand) : KeyCondition :=
  mkKeyCondition (CComparison (greater_than (OPath (key_path k)) r)).
Definition Key_greater_than_or_equal (k : Key) (r : Operand) : KeyCondition :=
  mkKeyCondition (CComparison (greater_than_or_equal (OPath (key_path k)) r)).
Definition Key_less_than (k : Key) (r : Operand) : KeyCondition :=
  mkKeyCondition (CComparison (less_than (OPath (key_path k)) r)).
Definition Key_less_than_or_equal (k : Key) (r : Operand) : KeyCondition :=
  mkKeyCondition (CComparison (less_than_or_equal (OPath (key_path k)) r)).

(** [In::new]; the items are given already converted by [Into::into]. *)
Definition in_new (op : Operand) (items : list Operand) : In_ := mkIn op (map (fun x => x) items).

(** ** Well-formed elements

    An element whose text [Element::from_str] reads back: a [Name] free of
    '.', '[' and ']'; an [IndexedField] whose name is non-empty and free of
    them, with at least one index, every index a [u32]. *)
Definition elem_wellformed (e : Element) : Prop :=
  match e with
  | EName n => no_brackets (name n) /\ ~ In "."%char (name n)
  | EIndexedField f =>
      name (if_name f) <> [] /\ no_brackets (name (if_name f)) /\ ~ In "."%char (name (if_name f)) /\
      indexes f <> [] /\ Forall (fun i => (0 <= i <= U32_MAX)%Z) (indexes f)
  end.

(** * Proofs *)

Example parse_ex1 :
  path_from_str (lit "foo[3][7].bar[2].baz") =
  Ok (mkPath [EIndexedField (mkIndexedField (mkName (lit "foo")) [3; 7]);
              EIndexedField (mkIndexedField (mkName (lit "bar")) [2]);
              EName (mkName (lit "baz"))])%Z.
Proof. vm_compute. reflexivity. Qed.

Example parse_ex2 : path_from_str (lit "foo[0]bar") = Err PathParseErr.
Proof. vm_compute. reflexivity. Qed.

Example parse_ex3 : path_from_str (lit "[0]") = Err PathParseErr.
Proof. vm_compute. reflexivity. Qed.

Example parse_ex4 : path_from_str (lit "foo[0]bar[3]") = Err PathParseErr.
Proof. vm_compute. reflexivity. Qed.


(** ** Lists of bytes *)

Lemma ascii_eqb_false a b : a <> b -> Ascii.eqb a b = false.
Proof. intros H. destruct (Ascii.eqb_spec a b); congruence. Qed.

Lemma find_none c s : ~ In c s -> find c s = None.
Proof.
  induction s as [|x r IH]; simpl; intros H; [reflexivity|].
  rewrite ascii_eqb_false by (intros ->; auto). rewrite IH by auto. reflexivity.
Qed.

Lemma find_none_inv c s : find c s = None -> ~ In c s.
Proof.
  induction s as [|x r IH]; simpl; [auto|].
  destruct (Ascii.eqb_spec x c); [discriminate|].
  destruct (find c r); simpl; [discriminate|].
  intros _ [H|H]; [congruence|]. apply IH; auto.
Qed.

Lemma find_app c a b : ~ In c a -> find c (a ++ c :: b) = Some (List.length a).
Proof.
  induction a as [|x r IH]; simpl; intros H.
  - rewrite Ascii.eqb_refl. reflexivity.
  - rewrite ascii_eqb_false by (intros ->; auto). rewrite IH by auto. reflexivity.
Qed.

Lemma find_some c s k :
  find c s = Some k -> exists a b, s = a ++ c :: b /\ List.length a = k /\ ~ In c a.
Proof.
  revert k; induction s as [|x r IH]; simpl; intros k H; [discriminate|].
  destruct (Ascii.eqb_spec x c) as [->|Hne].
  - injection H as <-. exists [], r. simpl. auto.
  - destruct (find c r) as [k'|] eqn:E; simpl in H; [|discriminate].
    injection H as <-. destruct (IH k' eq_refl) as (a & b & -> & <- & Ha).
    exists (x :: a), b. simpl. split; [reflexivity|]. split; [reflexivity|].
    intros [H|H]; [congruence|auto].
Qed.

Lemma firstn_app_len {A} (a b : list A) : firstn (List.length a) (a ++ b) = a.
Proof. induction a; simpl; [reflexivity|]. f_equal; assumption. Qed.

Lemma skipn_app_len {A} (a b : list A) : skipn (List.length a) (a ++ b) = b.
Proof. induction a; simpl; [reflexivity|]. assumption. Qed.

(** Splitting [a ++ b] at an [e] that [a] does not contain. *)
Lemma split_after e (a b x y : str) :
  ~ In e a -> a ++ b = x ++ e :: y -> exists x1, x = a ++ x1 /\ b = x1 ++ e :: y.
Proof.
  revert x; induction a as [|c a IH]; intros x Ha H; simpl in *.
  - exists x. auto.
  - destruct x as [|d x]; simpl in H; injection H as -> H.
    + exfalso; auto.
    + destruct (IH x) as (x1 & -> & ->); auto. exists x1. auto.
Qed.

Lemma split_first e (a b r r' : str) :
  ~ In e a -> ~ In e b -> a ++ e :: r = b ++ e :: r' -> a = b /\ r = r'.
Proof.
  revert b; induction a as [|c a IH]; intros [|d b] Ha Hb H; simpl in *.
  - injection H as ->. auto.
  - injection H as -> _. exfalso; auto.
  - injection H as <- _. exfalso; auto.
  - injection H as -> H. destruct (IH b) as [-> ->]; auto.
Qed.

Lemma in_concat_bracket c ts :
  In c (List.concat (map bracket ts)) -> c = "["%char \/ c = "]"%char \/ exists t, In t ts /\ In c t.
Proof.
  induction ts as [|t ts IH]; [simpl; tauto|].
  cbn [map List.concat]. intros H. apply in_app_or in H as [H|H].
  - unfold bracket in H. destruct H as [H|H]; [left; congruence|].
    apply in_app_or in H as [H|H]; [right; right; exists t; split; [left|]; auto|].
    destruct H as [H|H]; [right; left; congruence|contradiction].
  - destruct (IH H) as [?|[?|(t' & ? & ?)]]; [left|right; left|right; right]; auto.
    exists t'. split; [right|]; auto.
Qed.

(** ** The [u32] parser and the decimal renderer *)

Lemma u32_digits_app x y a :
  u32_digits (x ++ y) a = match u32_digits x a with Some v => u32_digits y v | None => None end.
Proof.
  revert a; induction x as [|c x IH]; intros a; simpl; [reflexivity|].
  destruct (to_digit c); [|reflexivity].
  destruct (U32_MAX <? a * 10 + z)%Z; [reflexivity|]. apply IH.
Qed.

Lemma u32_digits_digits s a v : u32_digits s a = Some v -> Forall (fun c => is_digit c = true) s.
Proof.
  revert a; induction s as [|c s IH]; intros a; simpl; [constructor|].
  destruct (to_digit c) eqn:Ec; [|discriminate].
  destruct (U32_MAX <? a * 10 + z)%Z; [discriminate|]. intros H. constructor.
  - unfold is_digit. rewrite Ec. reflexivity.
  - exact (IH _ H).
Qed.

Lemma u32_digits_value s a v :
  u32_digits s a = Some v ->
  v = fold_left (fun acc c => (acc * 10 + (Z.of_nat (nat_of_ascii c) - 48))%Z) s a /\
  (s <> [] -> (v <= U32_MAX)%Z).
Proof.
  revert a; induction s as [|c s IH]; intros a; simpl.
  - intros H; injection H as <-. split; [reflexivity|congruence].
  - unfold to_digit.
    destruct ((48 <=? Z.of_nat (nat_of_ascii c))%Z && (Z.of_nat (nat_of_ascii c) <=? 57)%Z);
      [|discriminate].
    destruct (U32_MAX <? a * 10 + (Z.of_nat (nat_of_ascii c) - 48))%Z eqn:Hc; [discriminate|].
    intros H. destruct (IH _ H) as [Hv Hb]. split; [exact Hv|].
    intros _. destruct s as [|c' s']; [|apply Hb; discriminate].
    simpl in H. injection H as <-. apply Z.ltb_ge in Hc. exact Hc.
Qed.

Lemma u32_digits_range s a v :
  (0 <= a <= U32_MAX)%Z -> u32_digits s a = Some v -> (0 <= v <= U32_MAX)%Z.
Proof.
  revert a; induction s as [|c s IH]; intros a Ha; simpl.
  - intros H; injection H as <-. exact Ha.
  - unfold to_digit.
    destruct ((48 <=? Z.of_nat (nat_of_ascii c))%Z && (Z.of_nat (nat_of_ascii c) <=? 57)%Z) eqn:Hd;
      [|discriminate].
    destruct (U32_MAX <? a * 10 + (Z.of_nat (nat_of_ascii c) - 48))%Z eqn:Hc; [discriminate|].
    apply andb_true_iff in Hd as [Hd1 Hd2]. apply Z.leb_le in Hd1. apply Z.ltb_ge in Hc.
    apply IH. lia.
Qed.

Lemma parse_u32_range t v : parse_u32 t = Some v -> (0 <= v <= U32_MAX)%Z.
Proof.
  unfold parse_u32. destruct t as [|c rest]; [discriminate|].
  destruct (Ascii.eqb c "+"%char); [destruct rest|]; try discriminate;
    apply u32_digits_range; unfold U32_MAX; lia.
Qed.

(** What the [u32] parser accepts holds only digits and a leading '+'. *)
Lemma parse_u32_chars t v :
  parse_u32 t = Some v -> forall c, In c t -> is_digit c = true \/ c = "+"%char.
Proof.
  unfold parse_u32. destruct t as [|c0 rest]; [discriminate|].
  destruct (Ascii.eqb_spec c0 "+"%char) as [->|Hne].
  - destruct rest as [|c1 rest]; [discriminate|]. intros H c [<-|Hin]; [right; reflexivity|].
    left. apply u32_digits_digits in H. rewrite Forall_forall in H. auto.
  - intros H c Hin. left. apply u32_digits_digits in H. rewrite Forall_forall in H. auto.
Qed.

Lemma parse_u32_separators t v :
  parse_u32 t = Some v -> ~ In "["%char t /\ ~ In "]"%char t /\ ~ In "."%char t.
Proof.
  intros H. pose proof (parse_u32_chars t v H) as Hc.
  repeat split; intros Hin; destruct (Hc _ Hin) as [E|E]; (discriminate || vm_compute in E; discriminate).
Qed.

Lemma dec_aux_acc f n acc : dec_aux f n acc = dec_aux f n [] ++ acc.
Proof.
  revert n acc; induction f as [|f IH]; intros n acc; simpl; [reflexivity|].
  destruct (n <? 10)%N; [reflexivity|].
  rewrite (IH _ (_ :: acc)), (IH _ [_]). rewrite <- app_assoc. reflexivity.
Qed.

Lemma to_digit_digit_char d : (d < 10)%N -> to_digit (digit_char d) = Some (Z.of_N d).
Proof.
  intros H. assert (d = 0 \/ d = 1 \/ d = 2 \/ d = 3 \/ d = 4 \/ d = 5 \/ d = 6 \/ d = 7
                    \/ d = 8 \/ d = 9)%N as Hd by lia.
  repeat destruct Hd as [->|Hd]; try (vm_compute; reflexivity). subst. vm_compute. reflexivity.
Qed.

Lemma u32_digits_dec f n :
  (n < 10 ^ N.of_nat f)%N -> (Z.of_N n <= U32_MAX)%Z ->
  u32_digits (dec_aux f n []) 0 = Some (Z.of_N n).
Proof.
  revert n; induction f as [|f IH]; intros n Hf Hm.
  - simpl in *. assert (n = 0%N) as -> by lia. reflexivity.
  - simpl dec_aux. destruct (n <? 10)%N eqn:Hn.
    + apply N.ltb_lt in Hn. simpl. rewrite to_digit_digit_char by (apply N.mod_lt; lia).
      rewrite N.mod_small by lia. simpl.
      destruct (U32_MAX <? Z.of_N n)%Z eqn:Hc; [apply Z.ltb_lt in Hc; lia|]. reflexivity.
    + apply N.ltb_ge in Hn. rewrite dec_aux_acc, u32_digits_app.
      rewrite IH.
      * simpl. rewrite to_digit_digit_char by (apply N.mod_lt; lia).
        assert (Z.of_N (n / 10) * 10 + Z.of_N (n mod 10) = Z.of_N n)%Z as E.
        { rewrite (N.div_mod n 10) at 3 by lia. lia. }
        rewrite E. destruct (U32_MAX <? Z.of_N n)%Z eqn:Hc; [apply Z.ltb_lt in Hc; lia|].
        reflexivity.
      * rewrite Nat2N.inj_succ, N.pow_succ_r' in Hf. apply N.Div0.div_lt_upper_bound. lia.
      * assert (n / 10 <= n)%N by (apply N.Div0.div_le_upper_bound; lia). lia.
Qed.

Lemma parse_u32_all_digits x :
  x <> [] -> Forall (fun c => is_digit c = true) x -> parse_u32 x = u32_digits x 0.
Proof.
  destruct x as [|c x]; [congruence|]. intros _ Hd. inversion Hd; subst.
  unfold parse_u32. destruct (Ascii.eqb_spec c "+"%char) as [->|_]; [discriminate|].
  reflexivity.
Qed.

Lemma dec_aux_nonempty f n acc : acc <> [] -> dec_aux f n acc <> [].
Proof.
  revert n acc; induction f as [|f IH]; intros n acc H; simpl; [exact H|].
  destruct (n <? 10)%N; [discriminate|]. apply IH. discriminate.
Qed.

Lemma dec_aux_S_nonempty f n : dec_aux (S f) n [] <> [].
Proof.
  simpl. destruct (n <? 10)%N; [discriminate|]. apply dec_aux_nonempty. discriminate.
Qed.

Lemma parse_u32_to_str v : (0 <= v <= U32_MAX)%Z -> parse_u32 (u32_to_str v) = Some v.
Proof.
  intros Hv. unfold u32_to_str.
  assert (u32_digits (dec_aux 10 (Z.to_N v) []) 0 = Some v) as H.
  { rewrite u32_digits_dec; [f_equal; lia| |rewrite Z2N.id; lia].
    unfold U32_MAX in Hv. apply N2Z.inj_lt. rewrite Z2N.id by lia. simpl. lia. }
  rewrite parse_u32_all_digits; [exact H| |exact (u32_digits_digits _ _ _ H)].
  apply dec_aux_S_nonempty.
Qed.

(** ** The loop of [Element::from_str] *)

Lemma bracket_app t rest : bracket t ++ rest = "["%char :: t ++ "]"%char :: rest.
Proof. unfold bracket. simpl. rewrite <- app_assoc. reflexivity. Qed.

Lemma parse_loop_cons f c r nm idx :
  parse_loop (S f) (c :: r) nm idx =
  match find "["%char (c :: r), find "]"%char (c :: r) with
  | None, None => match nm with Some _ => Err PathParseErr | None => Ok ([], Some (c :: r), idx) end
  | None, Some _ => Err PathParseErr
  | Some _, None => Err PathParseErr
  | Some open, Some close =>
      if Nat.leb close open then Err PathParseErr
      else
        match match nm with
              | None => if Nat.ltb 0 open then Ok (Some (firstn open (c :: r))) else Err PathParseErr
              | Some n => if Nat.ltb 0 open then Err PathParseErr else Ok (Some n)
              end with
        | Err e => Err e
        | Ok nm'' =>
            match parse_u32 (firstn (close - S open) (skipn (S open) (c :: r))) with
            | None => Err PathParseErr
            | Some index => parse_loop f (skipn (S close) (c :: r)) nm'' (idx ++ [index])
            end
        end
  end.
Proof. reflexivity. Qed.

Lemma skipn_past {A} (a : list A) c r : skipn (S (List.length a)) (a ++ c :: r) = r.
Proof. induction a; simpl; [reflexivity|]. assumption. Qed.

(** A run of bracketed indexes after the name has been read. *)
Lemma parse_loop_indexes ts vs n idx fuel :
  Forall2 (fun t v => parse_u32 t = Some v) ts vs ->
  List.length (List.concat (map bracket ts)) <= fuel ->
  parse_loop fuel (List.concat (map bracket ts)) (Some n) idx = Ok ([], Some n, idx ++ vs).
Proof.
  intros H; revert idx fuel; induction H as [|t v ts vs Htv _ IH]; intros idx fuel Hf.
  - rewrite app_nil_r. destruct fuel; reflexivity.
  - cbn [map List.concat] in *. rewrite bracket_app in *.
    destruct fuel as [|fuel]; [simpl in Hf; lia|].
    destruct (parse_u32_separators t v Htv) as (Hl & Hr & _).
    rewrite parse_loop_cons.
    replace (find "["%char ("["%char :: t ++ "]"%char :: List.concat (map bracket ts)))
      with (Some 0) by reflexivity.
    replace (find "]"%char ("["%char :: t ++ "]"%char :: List.concat (map bracket ts)))
      with (Some (S (List.length t)))
      by (simpl; rewrite find_app by exact Hr; reflexivity).
    cbn [Nat.leb Nat.ltb Nat.sub].
    replace (List.length t - 0) with (List.length t) by lia.
    rewrite skipn_cons, skipn_0, firstn_app_len, Htv.
    rewrite skipn_cons, skipn_past.
    rewrite IH.
    + rewrite <- app_assoc. reflexivity.
    + simpl in Hf. rewrite length_app in Hf. simpl in Hf. lia.
Qed.

Lemma parse_loop_nonempty f rem nm idx :
  rem <> [] ->
  parse_loop (S f) rem nm idx =
  match find "["%char rem, find "]"%char rem with
  | None, None => match nm with Some _ => Err PathParseErr | None => Ok ([], Some rem, idx) end
  | None, Some _ => Err PathParseErr
  | Some _, None => Err PathParseErr
  | Some open, Some close =>
      if Nat.leb close open then Err PathParseErr
      else
        match match nm with
              | None => if Nat.ltb 0 open then Ok (Some (firstn open rem)) else Err PathParseErr
              | Some n => if Nat.ltb 0 open then Err PathParseErr else Ok (Some n)
              end with
        | Err e => Err e
        | Ok nm'' =>
            match parse_u32 (firstn (close - S open) (skipn (S open) rem)) with
            | None => Err PathParseErr
            | Some index => parse_loop f (skipn (S close) rem) nm'' (idx ++ [index])
            end
        end
  end.
Proof. intros H. destruct rem as [|c r]; [congruence|]. apply parse_loop_cons. Qed.

Lemma length_pos_S {A} (l : list A) : l <> [] -> exists f, List.length l = S f.
Proof. destruct l; [congruence|]. simpl. eauto. Qed.

(** A bracket-free segment parses as a plain name. *)
Lemma element_from_str_plain s : no_brackets s -> element_from_str s = Ok (EName (mkName s)).
Proof.
  intros [Hl Hr]. unfold element_from_str.
  destruct s as [|c r]; [reflexivity|].
  cbn [List.length]. rewrite parse_loop_cons, (find_none _ _ Hl), (find_none _ _ Hr).
  reflexivity.
Qed.

(** A name followed by bracketed indexes parses as an indexed field. *)
Lemma element_from_str_indexed n ts vs :
  n <> [] -> no_brackets n -> ts <> [] ->
  Forall2 (fun t v => parse_u32 t = Some v) ts vs ->
  element_from_str (n ++ List.concat (map bracket ts)) =
  Ok (EIndexedField (mkIndexedField (mkName n) vs)).
Proof.
  intros Hn [Hnl Hnr] Hts H. destruct H as [|t v ts vs Htv Hrest]; [congruence|].
  destruct (parse_u32_separators t v Htv) as (Htl & Htr & _).
  cbn [map List.concat]. rewrite bracket_app.
  set (input := n ++ "["%char :: t ++ "]"%char :: List.concat (map bracket ts)).
  assert (input <> []) as Hne by (unfold input; destruct n; [congruence|discriminate]).
  unfold element_from_str. destruct (length_pos_S input Hne) as [f Hf]. rewrite Hf.
  rewrite parse_loop_nonempty by exact Hne.
  replace (find "["%char input) with (Some (List.length n)) by (symmetry; apply find_app, Hnl).
  replace (find "]"%char input) with (Some (List.length (n ++ "["%char :: t))).
  2:{ symmetry. unfold input. rewrite app_comm_cons, app_assoc. apply find_app.
      intros Hin. apply in_app_or in Hin as [Hin|[Hin|Hin]]; [auto|discriminate|auto]. }
  rewrite length_app. cbn [List.length].
  destruct (Nat.leb_spec (List.length n + S (List.length t)) (List.length n)) as [Hle|_]; [lia|].
  destruct (Nat.ltb_spec 0 (List.length n)) as [_|Hlt].
  2:{ destruct n; [congruence|simpl in Hlt; lia]. }
  unfold input. rewrite firstn_app_len, skipn_past.
  replace (List.length n + S (List.length t) - S (List.length n)) with (List.length t) by lia.
  rewrite firstn_app_len, Htv.
  replace (S (List.length n + S (List.length t))) with (S (List.length (n ++ "["%char :: t)))
    by (rewrite length_app; reflexivity).
  rewrite app_comm_cons, app_assoc, skipn_past.
  rewrite parse_loop_indexes with (vs := vs); [reflexivity|exact Hrest|].
  unfold input in Hf. rewrite !length_app in Hf. simpl in Hf. rewrite length_app in Hf.
  simpl in Hf. lia.
Qed.

(** What the loop accepts once the name is read: bracketed indexes only. *)
Lemma parse_loop_indexes_inv fuel rem n idx r nm' idx' :
  parse_loop fuel rem (Some n) idx = Ok (r, nm', idx') ->
  r = [] /\ nm' = Some n /\
  exists ts vs, rem = List.concat (map bracket ts) /\
    Forall2 (fun t v => parse_u32 t = Some v) ts vs /\ idx' = idx ++ vs.
Proof.
  revert rem idx; induction fuel as [|f IH]; intros rem idx H.
  - destruct rem; [|discriminate]. injection H as <- <- <-.
    split; [reflexivity|]. split; [reflexivity|]. exists [], [].
    split; [reflexivity|]. split; [constructor|]. rewrite app_nil_r. reflexivity.
  - destruct rem as [|c0 r0] eqn:Erem.
    { injection H as <- <- <-. split; [reflexivity|]. split; [reflexivity|]. exists [], [].
      split; [reflexivity|]. split; [constructor|]. rewrite app_nil_r. reflexivity. }
    rewrite <- Erem in H |- *. assert (rem <> []) as Hne by (subst; discriminate).
    clear Erem c0 r0.
    rewrite parse_loop_nonempty in H by exact Hne.
    destruct (find "["%char rem) as [o|] eqn:Eo, (find "]"%char rem) as [c|] eqn:Ec;
      try discriminate.
    destruct (Nat.leb_spec c o) as [_|Hco]; [discriminate|].
    destruct (Nat.ltb_spec 0 o) as [_|Ho]; [discriminate|].
    assert (o = 0) as -> by lia.
    destruct (parse_u32 (firstn (c - 1) (skipn 1 rem))) as [v|] eqn:Ev; [|discriminate].
    destruct (IH _ _ H) as (-> & -> & ts & vs & Hts & Hall & ->).
    split; [reflexivity|]. split; [reflexivity|].
    destruct (find_some _ _ _ Eo) as ([|x a] & b & Hb & Hlen & _); [|discriminate].
    destruct (find_some _ _ _ Ec) as ([|x a'] & b' & Hb' & Hlen' & _); [simpl in Hlen'; lia|].
    rewrite Hb' in Hb. simpl in Hb. injection Hb as Hx _. subst rem x.
    simpl in Hlen'. subst c.
    rewrite Nat.sub_1_r in Ev. simpl in Ev. rewrite firstn_app_len in Ev.
    change (S (S (List.length a'))) with (S (List.length ("["%char :: a'))) in Hts.
    rewrite skipn_past in Hts.
    exists (a' :: ts), (v :: vs). split.
    + cbn [map List.concat]. rewrite bracket_app, Hts. reflexivity.
    + split; [constructor; assumption|]. rewrite <- app_assoc. reflexivity.
Qed.

Lemma in_firstn_in {A} n (l : list A) x : In x (firstn n l) -> In x l.
Proof.
  intros H. rewrite <- (firstn_skipn n l). apply in_or_app. left. exact H.
Qed.

(** What [Element::from_str] accepts: a bracket-free name, or a non-empty
    bracket-free name followed by bracketed [u32] texts. *)
Lemma element_from_str_inv s e :
  element_from_str s = Ok e ->
  (e = EName (mkName s) /\ no_brackets s) \/
  (exists n ts vs, e = EIndexedField (mkIndexedField (mkName n) vs) /\
     s = n ++ List.concat (map bracket ts) /\ n <> [] /\ no_brackets n /\ ts <> [] /\
     Forall2 (fun t v => parse_u32 t = Some v) ts vs).
Proof.
  unfold element_from_str. intros H.
  destruct s as [|c0 r0] eqn:Es.
  { simpl in H. injection H as <-. left. split; [reflexivity|]. split; simpl; auto. }
  rewrite <- Es in H |- *. assert (s <> []) as Hne by (subst; discriminate).
  clear Es c0 r0.
  destruct (length_pos_S s Hne) as [f Hf]. rewrite Hf in H.
  rewrite parse_loop_nonempty in H by exact Hne.
  destruct (find "["%char s) as [o|] eqn:Eo, (find "]"%char s) as [c|] eqn:Ec;
    try discriminate.
  - destruct (Nat.leb_spec c o) as [_|Hco]; [discriminate|].
    destruct (Nat.ltb_spec 0 o) as [Ho|_]; [|discriminate].
    destruct (parse_u32 (firstn (c - S o) (skipn (S o) s))) as [v|] eqn:Ev; [|discriminate].
    destruct (parse_loop f (skipn (S c) s) (Some (firstn o s)) ([] ++ [v]))
      as [[[rem nm] idx]|] eqn:El; [|discriminate].
    destruct (parse_loop_indexes_inv _ _ _ _ _ _ _ El) as (-> & -> & ts & vs & Hts & Hall & ->).
    simpl in H. injection H as <-. right.
    destruct (find_some _ _ _ Eo) as (a & b & Hb & Hlen & Ha).
    destruct (find_some _ _ _ Ec) as (a' & b' & Hb' & Hlen' & Ha').
    assert (~ In "]"%char a) as Har.
    { intros Hin. apply Ha'.
      assert (a = firstn o (a' ++ "]"%char :: b')) as Ea.
      { rewrite <- Hb', Hb, <- Hlen. symmetry. apply firstn_app_len. }
      rewrite Ea, firstn_app in Hin. replace (o - List.length a') with 0 in Hin by lia.
      rewrite app_nil_r in Hin. apply in_firstn_in in Hin. exact Hin. }
    rewrite Hb in Hb'. destruct (split_after _ a _ _ _ Har Hb') as (x1 & Ex1 & Eb).
    destruct x1 as [|y m]; [discriminate|]. injection Eb as <- Eb. subst a' b.
    rewrite Hb in Ev, Hts |- *. subst o c. rewrite skipn_past in Ev.
    rewrite length_app in Ev. simpl in Ev.
    replace (List.length a + S (List.length m) - S (List.length a)) with (List.length m) in Ev
      by lia.
    rewrite firstn_app_len in Ev.
    replace (a ++ "["%char :: m ++ "]"%char :: b') with ((a ++ "["%char :: m) ++ "]"%char :: b')
      in Hts |- * by (rewrite <- app_assoc; reflexivity).
    rewrite skipn_past in Hts. subst b'.
    rewrite <- app_assoc. simpl. rewrite firstn_app_len.
    exists a, (m :: ts), (v :: vs). split; [reflexivity|]. split.
    + cbn [map List.concat]. rewrite bracket_app. reflexivity.
    + split; [destruct a; [simpl in Ho; lia|discriminate]|].
      split; [split; assumption|]. split; [discriminate|]. constructor; assumption.
  - injection H as <-. left. split; [reflexivity|].
    split; apply find_none_inv; assumption.
Qed.

(** ** [split('.')] and [try_collect] *)

Lemma split_dot_nonempty s : split_dot s <> [].
Proof.
  destruct s as [|c r]; simpl; [discriminate|].
  destruct (Ascii.eqb c "."%char); [discriminate|]. destruct (split_dot r); discriminate.
Qed.

Lemma split_dot_chars s seg c : In seg (split_dot s) -> In c seg -> In c s /\ c <> "."%char.
Proof.
  revert seg; induction s as [|x r IH]; intros seg; simpl.
  - intros [<-|[]] [].
  - destruct (Ascii.eqb_spec x "."%char) as [->|Hx].
    + intros [<-|Hin] Hc; [destruct Hc|]. destruct (IH _ Hin Hc). auto.
    + pose proof (split_dot_nonempty r) as Hne.
      destruct (split_dot r) as [|p ps] eqn:E; [congruence|].
      intros [<-|Hin] Hc.
      * destruct Hc as [<-|Hc]; [auto|]. destruct (IH p (or_introl eq_refl) Hc). auto.
      * destruct (IH seg (or_intror Hin) Hc). auto.
Qed.

Lemma split_dot_app x rest :
  ~ In "."%char x ->
  split_dot (x ++ rest) = match split_dot rest with p :: ps => (x ++ p) :: ps | [] => [x] end.
Proof.
  induction x as [|c x IH]; intros Hx; simpl.
  - pose proof (split_dot_nonempty rest) as Hne.
    destruct (split_dot rest); [congruence|reflexivity].
  - rewrite ascii_eqb_false by (intros ->; apply Hx; left; reflexivity).
    rewrite IH by (intros H; apply Hx; right; exact H).
    pose proof (split_dot_nonempty rest) as Hne. destruct (split_dot rest); [congruence|].
    reflexivity.
Qed.

Lemma split_dot_join x ys :
  ~ In "."%char x -> Forall (fun y => ~ In "."%char y) ys ->
  split_dot (x ++ List.concat (map (fun y => "."%char :: y) ys)) = x :: ys.
Proof.
  revert x; induction ys as [|y ys IH]; intros x Hx Hys.
  - simpl. rewrite app_nil_r, <- (app_nil_r x), split_dot_app by exact Hx. simpl.
    rewrite app_nil_r. reflexivity.
  - inversion Hys as [|? ? Hy Hys']; subst. cbn [map List.concat].
    rewrite split_dot_app by exact Hx. simpl. rewrite IH by assumption.
    rewrite app_nil_r. reflexivity.
Qed.

(** A dot-free piece of a text lies inside one segment. *)
Lemma split_dot_contains pre m post :
  ~ In "."%char m ->
  exists seg x y, In seg (split_dot (pre ++ m ++ post)) /\ seg = x ++ m ++ y.
Proof.
  intros Hm. induction pre as [|c pre IH]; simpl.
  - rewrite split_dot_app by exact Hm.
    pose proof (split_dot_nonempty post) as Hne. destruct (split_dot post) as [|p ps]; [congruence|].
    exists (m ++ p), [], p. split; [left; reflexivity|reflexivity].
  - destruct IH as (seg & x & y & Hin & Hseg). subst seg.
    destruct (Ascii.eqb c "."%char).
    + exists (x ++ m ++ y), x, y. split; [simpl; right; exact Hin|reflexivity].
    + destruct (split_dot (pre ++ m ++ post)) as [|p ps]; [destruct Hin|].
      destruct Hin as [Hp|Hin].
      * subst p. exists (c :: x ++ m ++ y), (c :: x), y. split; [simpl; left; reflexivity|reflexivity].
      * exists (x ++ m ++ y), x, y. split; [simpl; right; exact Hin|reflexivity].
Qed.

Lemma try_collect_ok ps es :
  try_collect ps = Ok es <-> Forall2 (fun p e => element_from_str p = Ok e) ps es.
Proof.
  split.
  - revert es; induction ps as [|p ps IH]; intros es; simpl.
    + intros H; injection H as <-. constructor.
    + destruct (element_from_str p) as [e|] eqn:Ep; [|discriminate].
      destruct (try_collect ps) as [es'|]; [|discriminate].
      intros H; injection H as <-. constructor; auto.
  - induction 1 as [|p e ps es He _ IH]; simpl; [reflexivity|].
    rewrite He, IH. reflexivity.
Qed.

(** ** Display *)

Lemma display_app v a b : display v (a ++ b) = display v a ++ display v b.
Proof. unfold display. rewrite map_app, concat_app. reflexivity. Qed.

Lemma display_cons v x l : display v (x :: l) = display_piece v x ++ display v l.
Proof. reflexivity. Qed.

Lemma display_write_sep v sep items :
  display v (write_sep false sep items) = List.concat (map (fun it => sep ++ display v it) items).
Proof.
  induction items as [|it items IH]; [reflexivity|].
  cbn [write_sep]. rewrite !display_app, IH. cbn [map List.concat].
  rewrite <- app_assoc. rewrite display_cons. cbn [display_piece].
  unfold display at 1. simpl. rewrite app_nil_r. reflexivity.
Qed.

Lemma display_path_cons v e es :
  display v (fmt_path (mkPath (e :: es))) =
  display v (fmt_element e)
    ++ List.concat (map (fun e => "."%char :: display v (fmt_element e)) es).
Proof.
  unfold fmt_path. simpl. rewrite display_app, display_write_sep, map_map. reflexivity.
Qed.

Lemma display_element_indexed v n ix :
  display v (fmt_element (EIndexedField (mkIndexedField n ix))) =
  name n ++ List.concat (map bracket (map u32_to_str ix)).
Proof.
  unfold display. simpl. f_equal. induction ix as [|i ix IH]; simpl; [reflexivity|].
  rewrite IH. unfold bracket. simpl. rewrite <- app_assoc. reflexivity.
Qed.

(** ** Re-parsing a rendered element *)

Lemma canonical_indexes ts vs :
  Forall2 (fun t v => parse_u32 t = Some v) ts vs ->
  Forall2 (fun t v => parse_u32 t = Some v) (map u32_to_str vs) vs.
Proof.
  induction 1 as [|t v ts vs Ht _ IH]; simpl; constructor; auto.
  apply parse_u32_to_str, (parse_u32_range t), Ht.
Qed.

Lemma display_element_vfmt v v' e :
  display v (fmt_element e) = display v' (fmt_element e).
Proof.
  destruct e as [n|[n ix]]; [reflexivity|]. rewrite !display_element_indexed. reflexivity.
Qed.

Lemma element_roundtrip v seg e :
  element_from_str seg = Ok e -> ~ In "."%char seg ->
  element_from_str (display v (fmt_element e)) = Ok e /\
  ~ In "."%char (display v (fmt_element e)).
Proof.
  intros He Hdot. destruct (element_from_str_inv seg e He) as [[-> Hnb]|(n & ts & vs & -> & -> & Hn & Hnb & Hts & Hvs)].
  - unfold display. simpl. rewrite app_nil_r. split; [apply element_from_str_plain; exact Hnb|exact Hdot].
  - rewrite display_element_indexed. simpl name.
    pose proof (canonical_indexes ts vs Hvs) as Hc. split.
    + apply element_from_str_indexed; auto.
      destruct ts; [congruence|]. inversion Hvs; subst. discriminate.
    + intros Hin. apply in_app_or in Hin as [Hin|Hin].
      * apply Hdot, in_or_app. left; exact Hin.
      * apply in_concat_bracket in Hin as [Hc'|[Hc'|(t & Ht & Hin)]]; [discriminate|discriminate|].
        apply in_map_iff in Ht as (w & <- & Hw).
        assert (Hr : (0 <= w <= U32_MAX)%Z).
        { clear -Hvs Hw. induction Hvs as [|t' v' ts' vs' Ht' _ IH]; simpl in Hw; [destruct Hw|].
          destruct Hw as [<-|Hw]; [exact (parse_u32_range _ _ Ht')|auto]. }
        apply (parse_u32_separators _ w (parse_u32_to_str w Hr)), Hin.
Qed.

Lemma elements_roundtrip v segs es :
  Forall2 (fun p e => element_from_str p = Ok e) segs es ->
  Forall (fun p => ~ In "."%char p) segs ->
  Forall2 (fun p e => element_from_str p = Ok e) (map (fun e => display v (fmt_element e)) es) es /\
  Forall (fun p => ~ In "."%char p) (map (fun e => display v (fmt_element e)) es).
Proof.
  induction 1 as [|p e ps es He _ IH]; intros Hd; simpl; [split; constructor|].
  inversion Hd as [|? ? Hp Hps]; subst.
  destruct (element_roundtrip v p e He Hp) as [H1 H2]. destruct (IH Hps) as [H3 H4].
  split; constructor; auto.
Qed.

Lemma split_dot_no_dot s : Forall (fun p => ~ In "."%char p) (split_dot s).
Proof.
  apply Forall_forall. intros seg Hseg Hin. destruct (split_dot_chars s seg "."%char Hseg Hin). auto.
Qed.

(** ** Segments of a path text *)

Lemma segment_ok_parse seg : segment_ok seg -> exists e, element_from_str seg = Ok e.
Proof.
  destruct 1 as [s Hs|n ts Hn Hnb Hts Hall].
  - eexists. apply element_from_str_plain, Hs.
  - assert (exists vs, Forall2 (fun t v => parse_u32 t = Some v) ts vs) as [vs Hvs].
    { clear -Hall. induction Hall as [|t ts [v Hv] _ [vs IH]]; [exists []; constructor|].
      exists (v :: vs). constructor; assumption. }
    eexists. apply element_from_str_indexed; eassumption.
Qed.

Lemma parse_segment_ok seg e : element_from_str seg = Ok e -> segment_ok seg.
Proof.
  intros He. destruct (element_from_str_inv seg e He) as [[_ Hnb]|(n & ts & vs & _ & -> & Hn & Hnb & Hts & Hvs)].
  - apply seg_plain, Hnb.
  - apply seg_indexed; auto. clear -Hvs.
    induction Hvs as [|t v ts vs Hv _ IH]; constructor; eauto.
Qed.

Lemma try_collect_segments segs :
  (exists es, try_collect segs = Ok es) <-> Forall segment_ok segs.
Proof.
  split.
  - intros [es Hes]. apply try_collect_ok in Hes.
    induction Hes as [|p e ps es He _ IH]; constructor; [|exact IH].
    exact (parse_segment_ok p e He).
  - induction 1 as [|p ps Hp _ [es IH]].
    + exists []. reflexivity.
    + destruct (segment_ok_parse p Hp) as [e He]. exists (e :: es). simpl. rewrite He, IH. reflexivity.
Qed.

Lemma forall2_in_left {A B} (R : A -> B -> Prop) l l' a :
  Forall2 R l l' -> In a l -> exists b, R a b.
Proof.
  induction 1 as [|x y l l' Hxy _ IH]; intros Hin; [destruct Hin|].
  destruct Hin as [<-|Hin]; eauto.
Qed.

(** A bracketed piece [[d]] inside the indexes of a segment is one of them. *)
Lemma bracket_in_indexes ts x1 d y :
  Forall no_brackets ts -> no_brackets d ->
  List.concat (map bracket ts) = x1 ++ "["%char :: d ++ "]"%char :: y -> In d ts.
Proof.
  revert x1; induction ts as [|t ts IH]; intros x1 Hts Hd Heq.
  - simpl in Heq. destruct x1; discriminate.
  - inversion Hts as [|? ? Ht Hts']; subst.
    cbn [map List.concat] in Heq. rewrite bracket_app in Heq.
    destruct x1 as [|c x1].
    + injection Heq as Heq.
      destruct (split_first "]"%char t d _ _ (proj2 Ht) (proj2 Hd) Heq) as [-> _].
      left. reflexivity.
    + injection Heq as _ Heq.
      replace (t ++ "]"%char :: List.concat (map bracket ts))
        with ((t ++ ["]"%char]) ++ List.concat (map bracket ts)) in Heq
        by (rewrite <- app_assoc; reflexivity).
      apply split_after in Heq as (x2 & _ & Hrest).
      * right. exact (IH x2 Hts' Hd Hrest).
      * intros Hin. apply in_app_or in Hin as [Hin|[Hin|[]]]; [exact (proj1 Ht Hin)|discriminate].
Qed.

Lemma digits_not_dot d : Forall (fun c => is_digit c = true) d -> ~ In "."%char d.
Proof.
  intros Hd Hin. rewrite Forall_forall in Hd. specialize (Hd _ Hin). discriminate.
Qed.

(** ** Rendering helpers *)

Lemma display_path_vfmt v v' p : display v (fmt_path p) = display v' (fmt_path p).
Proof.
  destruct p as [[|e es]]; [reflexivity|]. rewrite !display_path_cons.
  rewrite (display_element_vfmt v v' e). f_equal. f_equal.
  apply map_ext. intros x. rewrite (display_element_vfmt v v' x). reflexivity.
Qed.

(** ** The substitution table *)

(** One step of [first_uses]: append if absent. *)
Lemma index_of_none {A} (eqb : A -> A -> bool) x l :
  index_of eqb x l = None <-> existsb (eqb x) l = false.
Proof.
  induction l as [|y l IH]; simpl; [split; reflexivity|].
  destruct (eqb x y); simpl; [split; discriminate|].
  destruct (index_of eqb x l); simpl; rewrite <- IH; split; congruence.
Qed.

Lemma token_of_table {A} (eqb : A -> A -> bool) x tbl :
  snd (token_of eqb x tbl) = if existsb (eqb x) tbl then tbl else tbl ++ [x].
Proof.
  unfold token_of. destruct (index_of eqb x tbl) as [i|] eqn:E.
  - destruct (existsb (eqb x) tbl) eqn:E'; [reflexivity|].
    apply index_of_none in E'. congruence.
  - apply index_of_none in E. rewrite E. reflexivity.
Qed.

Lemma render_pieces_table ps t :
  t_names (snd (render_pieces ps t)) =
    fold_left (fun acc x => if existsb (name_eqb x) acc then acc else acc ++ [x])
              (piece_names ps) (t_names t) /\
  t_values (snd (render_pieces ps t)) =
    fold_left (fun acc x => if existsb (value_eqb x) acc then acc else acc ++ [x])
              (piece_values ps) (t_values t).
Proof.
  revert t; induction ps as [|p ps IH]; intros t; [split; reflexivity|].
  cbn [render_pieces].
  destruct (render_piece p t) as [s t1] eqn:Ep.
  destruct (render_pieces ps t1) as [s' t2] eqn:Er.
  specialize (IH t1). rewrite Er in IH. simpl snd in *. destruct IH as [IHn IHv].
  rewrite IHn, IHv.
  destruct p as [s0|n|[v|r]]; simpl in Ep |- *.
  - injection Ep as <- <-. split; reflexivity.
  - unfold name_token in Ep. pose proof (token_of_table name_eqb n (t_names t)) as Ht.
    destruct (token_of name_eqb n (t_names t)) as [i ns]. injection Ep as <- <-.
    simpl in *. rewrite Ht. split; reflexivity.
  - unfold value_token in Ep. pose proof (token_of_table value_eqb v (t_values t)) as Ht.
    destruct (token_of value_eqb v (t_values t)) as [i vs]. injection Ep as <- <-.
    simpl in *. rewrite Ht. split; reflexivity.
  - injection Ep as <- <-. split; reflexivity.
Qed.

Lemma render_opt_table o t :
  let ps := match o with Some ps => ps | None => [] end in
  t_names (snd (render_opt o t)) =
    fold_left (fun acc x => if existsb (name_eqb x) acc then acc else acc ++ [x])
              (piece_names ps) (t_names t) /\
  t_values (snd (render_opt o t)) =
    fold_left (fun acc x => if existsb (value_eqb x) acc then acc else acc ++ [x])
              (piece_values ps) (t_values t).
Proof.
  destruct o as [ps|]; simpl; [|split; reflexivity].
  pose proof (render_pieces_table ps t) as H.
  destruct (render_pieces ps t). exact H.
Qed.

Lemma compile_tables e :
  o_names (compile e) = numbered name_tok (first_uses name_eqb (piece_names (expr_pieces e))) /\
  o_values (compile e) = numbered value_tok (first_uses value_eqb (piece_values (expr_pieces e))).
Proof.
  unfold compile, first_uses, expr_pieces, clause_pieces.
  set (o1 := option_map (fun sc => fmt_condition (snd sc)) (e_condition e)).
  set (o2 := option_map fmt_key_condition (e_key_condition e)).
  set (o3 := option_map fmt_projection (e_projection e)).
  set (o4 := option_map fmt_update (e_update e)).
  pose proof (render_opt_table o1 empty_table) as [N1 V1].
  destruct (render_opt o1 empty_table) as [c t1]. simpl snd in N1, V1.
  pose proof (render_opt_table o2 t1) as [N2 V2].
  destruct (render_opt o2 t1) as [k t2]. simpl snd in N2, V2.
  pose proof (render_opt_table o3 t2) as [N3 V3].
  destruct (render_opt o3 t2) as [pr t3]. simpl snd in N3, V3.
  pose proof (render_opt_table o4 t3) as [N4 V4].
  destruct (render_opt o4 t3) as [u t4]. simpl snd in N4, V4.
  cbn [o_names o_values flat_map]. rewrite app_nil_r.
  unfold piece_names, piece_values. rewrite !flat_map_app, !fold_left_app.
  unfold piece_names, piece_values in *. rewrite N4, N3, N2, N1, V4, V3, V2, V1.
  split; reflexivity.
Qed.

(** * The claims *)

(** ** Parsing and rendering paths *)

(** C1 (round trip).  Rendering a parsed path and parsing the text again
    gives back the same path; hence render(parse(render p)) = render p.  The
    text itself is not always given back: indexes are rendered in canonical
    decimal, so "a[05]" and "a[+5]" come back as "a[5]". *)
Theorem path_display_roundtrip s p :
  path_from_str s = Ok p ->
  path_from_str (path_to_string p) = Ok p /\
  (forall p', path_from_str (path_to_string p) = Ok p' -> path_to_string p' = path_to_string p).
Proof.
  intros H. unfold path_from_str in H.
  destruct (try_collect (split_dot s)) as [es|] eqn:E; [|discriminate].
  injection H as <-. apply try_collect_ok in E.
  destruct (elements_roundtrip (fun _ => []) _ _ E (split_dot_no_dot s)) as [H1 H2].
  destruct es as [|e es'].
  { inversion E as [Hs|]. exfalso. exact (split_dot_nonempty s (eq_sym Hs)). }
  assert (Hp : path_from_str (path_to_string (mkPath (e :: es'))) = Ok (mkPath (e :: es'))).
  { unfold path_to_string. rewrite display_path_cons. unfold path_from_str.
    cbn [map] in H1, H2. inversion H2 as [|? ? Hx Hys]; subst.
    rewrite <- (map_map (fun e => display (fun _ => []) (fmt_element e)) (fun y => "."%char :: y)).
    rewrite split_dot_join by assumption.
    apply (proj2 (try_collect_ok _ _)) in H1. unfold str in *. rewrite H1. reflexivity. }
  split; [exact Hp|]. intros p' Hp'. rewrite Hp in Hp'. injection Hp' as <-. reflexivity.
Qed.

Lemma path_display_roundtrip_witness :
  path_from_str (lit "a[05].b") =
    Ok (mkPath [EIndexedField (mkIndexedField (mkName (lit "a")) [5%Z]); EName (mkName (lit "b"))]) /\
  path_to_string (mkPath [EIndexedField (mkIndexedField (mkName (lit "a")) [5%Z]); EName (mkName (lit "b"))])
    = lit "a[5].b" /\
  (let p := mkPath [EIndexedField (mkIndexedField (mkName (lit "a")) [5%Z]); EName (mkName (lit "b"))] in
   path_from_str (path_to_string p) = Ok p /\
   (forall p', path_from_str (path_to_string p) = Ok p' -> path_to_string p' = path_to_string p)).
Proof.
  split; [vm_compute; reflexivity|]. split; [vm_compute; reflexivity|].
  cbv zeta. apply (path_display_roundtrip (lit "a[05].b")). vm_compute. reflexivity.
Defined.

(** C1 does not hold at the text level: "a[05]" parses, and its rendering
    is "a[5]". *)
Lemma path_display_roundtrip_counterexample :
  path_from_str (lit "a[05]") = Ok (mkPath [EIndexedField (mkIndexedField (mkName (lit "a")) [5%Z])]) /\
  path_to_string (mkPath [EIndexedField (mkIndexedField (mkName (lit "a")) [5%Z])]) = lit "a[5]" /\
  lit "a[5]" <> lit "a[05]".
Proof.
  split; [vm_compute; reflexivity|]. split; [vm_compute; reflexivity|discriminate].
Qed.

(** C3 (the grammar).  A path text parses exactly when every '.'-separated
    segment is a bracket-free name (possibly empty) or a non-empty
    bracket-free name followed by one or more "[t]" whose t Rust's u32
    parser accepts: an optional '+', decimal digits, a value at most
    4294967295. *)
Theorem path_from_str_grammar s :
  (exists p, path_from_str s = Ok p) <-> Forall segment_ok (split_dot s).
Proof.
  rewrite <- try_collect_segments. unfold path_from_str. split.
  - intros [p H]. destruct (try_collect (split_dot s)) as [es|]; [eauto|discriminate].
  - intros [es H]. rewrite H. eauto.
Qed.

(** C3 fails for indexes beyond u32: "foo[4294967296]" is balanced, has a
    non-negative integer in its brackets, and is rejected. *)
Lemma path_from_str_grammar_counterexample :
  path_from_str (lit "foo[4294967296]") = Err PathParseErr.
Proof. vm_compute. reflexivity. Qed.

(** C9 (empty names).  A bracket-free text parses into one [Name] per
    '.'-separated segment, empty segments included; the empty text parses
    into a single empty [Name]. *)
Theorem path_from_str_bracket_free s :
  no_brackets s ->
  path_from_str s = Ok (mkPath (map (fun seg => EName (mkName seg)) (split_dot s))).
Proof.
  intros [Ho Hc]. unfold path_from_str.
  assert (Hsegs : forall l, (forall seg, In seg l -> no_brackets seg) ->
            try_collect l = Ok (map (fun seg => EName (mkName seg)) l)).
  { induction l as [|seg l IH]; intros Hl; [reflexivity|]. simpl.
    rewrite element_from_str_plain by (apply Hl; left; reflexivity).
    rewrite IH by (intros x Hx; apply Hl; right; exact Hx). reflexivity. }
  rewrite Hsegs; [reflexivity|].
  intros seg Hseg. split; intros Hin; [apply Ho|apply Hc]; exact (proj1 (split_dot_chars s seg _ Hseg Hin)).
Qed.

Lemma path_from_str_bracket_free_witness :
  path_from_str (lit "") = Ok (mkPath [EName (mkName [])]) /\
  path_from_str (lit "foo..bar.") =
    Ok (mkPath [EName (mkName (lit "foo")); EName (mkName []); EName (mkName (lit "bar")); EName (mkName [])]).
Proof.
  split.
  - rewrite (path_from_str_bracket_free (lit "")); [reflexivity|split; intros []].
  - rewrite (path_from_str_bracket_free (lit "foo..bar."));
      [vm_compute; reflexivity|split; cbn; intuition discriminate].
Defined.

(** C10 (u32 indexes).  A bracket holding a non-empty decimal numeral whose
    value exceeds 4294967295 makes the whole path text fail to parse,
    whatever surrounds it. *)
Theorem path_from_str_index_overflow pre d post :
  d <> [] -> forallb is_digit d = true -> (U32_MAX < dec_value d)%Z ->
  path_from_str (pre ++ "["%char :: d ++ "]"%char :: post) = Err PathParseErr.
Proof.
  intros Hne Hdig Hbig.
  assert (Hd : Forall (fun c => is_digit c = true) d).
  { apply Forall_forall. intros c Hc. exact (proj1 (forallb_forall _ _) Hdig c Hc). }
  assert (Hdnb : no_brackets d).
  { rewrite Forall_forall in Hd. split; intros Hin; specialize (Hd _ Hin); discriminate. }
  unfold path_from_str.
  destruct (try_collect (split_dot _)) as [es|[]] eqn:E; [exfalso|reflexivity].
  apply try_collect_ok in E.
  replace (pre ++ "["%char :: d ++ "]"%char :: post)
    with (pre ++ ("["%char :: d ++ ["]"%char]) ++ post) in E
    by (simpl; rewrite <- app_assoc; reflexivity).
  destruct (split_dot_contains pre ("["%char :: d ++ ["]"%char]) post) as (seg & x & y & Hin & Hseg).
  { intros [H|H]; [discriminate|]. apply in_app_or in H as [H|[H|[]]];
      [exact (digits_not_dot d Hd H)|discriminate]. }
  destruct (forall2_in_left _ _ _ _ E Hin) as [e He].
  destruct (element_from_str_inv seg e He)
    as [[_ [Hnb _]]|(n & ts & vs & _ & Hs & Hn & Hnb & Hts & Hvs)].
  - apply Hnb. subst seg. apply in_or_app. right. left. reflexivity.
  - subst seg.
    replace (x ++ ("["%char :: d ++ ["]"%char]) ++ y) with (x ++ "["%char :: d ++ "]"%char :: y) in Hs
      by (simpl; rewrite <- app_assoc; reflexivity).
    symmetry in Hs. apply split_after in Hs as (x1 & _ & Hrest); [|exact (proj1 Hnb)].
    assert (Htsnb : Forall no_brackets ts).
    { clear -Hvs. induction Hvs as [|t v ts vs Hv _ IH]; constructor; [|exact IH].
      destruct (parse_u32_separators t v Hv) as [H1 [H2 _]]. split; assumption. }
    pose proof (bracket_in_indexes ts x1 d y Htsnb Hdnb Hrest) as Hdin.
    destruct (forall2_in_left _ _ _ _ Hvs Hdin) as [v Hv].
    rewrite parse_u32_all_digits in Hv by assumption.
    apply u32_digits_value in Hv as [Hv1 Hv2]. specialize (Hv2 Hne).
    unfold dec_value in Hbig. lia.
Qed.

Lemma path_from_str_index_overflow_witness :
  path_from_str (lit "foo[4294967296]") = Err PathParseErr.
Proof.
  apply (path_from_str_index_overflow (lit "foo") (lit "4294967296") []);
    [discriminate|reflexivity|vm_compute; reflexivity].
Defined.

(** ** Constructors *)

(** C5 (canonical elements).  [Element::indexed_field], the conversion from
    a [(name, indexes)] tuple and the conversion from an [IndexedField] give
    the plain [Name] when there is no index and an [IndexedField] with
    exactly the given indexes otherwise; so none of them gives an indexed
    field without indexes. *)
Theorem element_constructors_canonical :
  forall n ix,
    let canon := match ix with [] => EName n | _ :: _ => EIndexedField (mkIndexedField n ix) end in
    element_indexed_field n ix = canon /\
    element_from_tuple n ix = canon /\
    element_from_indexed_field (mkIndexedField n ix) = canon /\
    elem_canonical canon.
Proof.
  intros n [|i ix]; simpl; repeat split; discriminate.
Qed.

(** C6 (non-empty paths).  A parsed path and a path converted from one
    element are non-empty; collecting an iterator keeps exactly its items,
    so it gives an empty path when the iterator is empty. *)
Theorem path_constructors_nonempty :
  (forall s p, path_from_str s = Ok p -> path p <> []) /\
  (forall e, path (path_from e) <> []) /\
  (forall items, path (path_from_iter items) = items).
Proof.
  split; [|split].
  - intros s p H. unfold path_from_str in H.
    destruct (try_collect (split_dot s)) as [es|] eqn:E; [|discriminate].
    injection H as <-. simpl. apply try_collect_ok in E. intros ->.
    inversion E as [Hs|]. exact (split_dot_nonempty s (eq_sym Hs)).
  - intros e. discriminate.
  - intros items. apply map_id.
Qed.

(** C6 fails for [FromIterator]: collecting no element gives a [Path] with
    no element. *)
Lemma path_constructors_nonempty_counterexample : path (path_from_iter []) = [].
Proof. reflexivity. Qed.

(** ** Rendering *)

(** C7 (Math).  A [Math] built with [Math::builder(dst)], optionally
    [.src(src)], and ended by [.add(num)] or [.sub(num)] renders as
    "{dst} = {src} + {num}" or "{dst} = {src} - {num}", with [src] the
    destination when none was set. *)
Theorem math_builder_display :
  forall vfmt dst osrc num,
    let b := match osrc with Some s => builder_src (math_builder dst) s | None => math_builder dst end in
    let src := match osrc with Some s => s | None => dst end in
    display vfmt (fmt_math (builder_add b num)) =
      path_to_string dst ++ lit " = " ++ path_to_string src ++ lit " + " ++ vfmt (VNum num) /\
    display vfmt (fmt_math (builder_sub b num)) =
      path_to_string dst ++ lit " = " ++ path_to_string src ++ lit " - " ++ vfmt (VNum num).
Proof.
  intros vfmt dst osrc num b src. unfold path_to_string.
  rewrite (display_path_vfmt (fun _ => []) vfmt dst), (display_path_vfmt (fun _ => []) vfmt src).
  assert (Hb : b_dst b = dst /\ b_src b = osrc) by (subst b; destruct osrc; split; reflexivity).
  destruct Hb as [Hd Hs].
  unfold builder_add, builder_sub, with_op, fmt_math. simpl m_dst. simpl m_src.
  rewrite Hd, Hs. fold src.
  set (D1 := display vfmt (fmt_path dst)). set (D2 := display vfmt (fmt_path src)).
  split; rewrite !display_app; fold D1 D2; unfold display; simpl; rewrite !app_nil_r; reflexivity.
Qed.

(** C4 (And and Or).  Displaying [l AND r] writes "{l} AND {r}", with no
    parentheses added, while displaying [l OR r] writes "({l}) OR ({r})". *)
Theorem condition_and_or_display :
  forall vfmt l r,
    display vfmt (fmt_condition (CAnd l r)) =
      display vfmt (fmt_condition l) ++ lit " AND " ++ display vfmt (fmt_condition r) /\
    display vfmt (fmt_condition (COr l r)) =
      lit "(" ++ display vfmt (fmt_condition l) ++ lit ") OR (" ++ display vfmt (fmt_condition r)
        ++ lit ")".
Proof.
  intros vfmt l r. cbn [fmt_condition]. rewrite !display_app. split; reflexivity.
Qed.

(** C4 fails for [And]: the filter of tests/simple.rs, built with [.and],
    displays as "attribute_exists(#0) AND #1 >= :0", not with each operand
    in parentheses. *)
Lemma condition_and_or_display_counterexample :
  display (fun _ => []) (fmt_condition query_filter_refs) = lit "attribute_exists(#0) AND #1 >= :0" /\
  lit "attribute_exists(#0) AND #1 >= :0" <> lit "(attribute_exists(#0)) AND (#1 >= :0)".
Proof. split; [vm_compute; reflexivity|discriminate]. Qed.

(** ** The compiler *)

(** C2 (tokens).  Compiling the query of tests/simple.rs gives filter
    "attribute_exists(#0) AND #1 >= :0", projection "#0, #1", key condition
    "#2 = :1", names #0=name, #1=age, #2=id and values :0=2.5, :1=42; and for
    every expression the name and value tokens are 0, 1, 2, ... given to the
    distinct names and values in the order of their first use. *)
Theorem compile_tokens :
  (let o := compile query_expr in
   o_filter o = Some (lit "attribute_exists(#0) AND #1 >= :0") /\
   o_condition o = None /\
   o_projection o = Some (lit "#0, #1") /\
   o_key_condition o = Some (lit "#2 = :1") /\
   o_update o = None /\
   o_names o = [(lit "#0", mkName (lit "name")); (lit "#1", mkName (lit "age"));
                (lit "#2", mkName (lit "id"))] /\
   o_values o = [(lit ":0", VNum (5 # 2)); (lit ":1", VNum (42 # 1))]) /\
  (forall e,
     o_names (compile e) = numbered name_tok (first_uses name_eqb (piece_names (expr_pieces e))) /\
     o_values (compile e) = numbered value_tok (first_uses value_eqb (piece_values (expr_pieces e)))).
Proof.
  split; [vm_compute; repeat split; reflexivity|exact compile_tables].
Qed.

(** * Further properties of the code *)

(** ** Helpers *)

Lemma elem_parsed_wellformed seg e :
  element_from_str seg = Ok e -> ~ In "."%char seg -> elem_wellformed e.
Proof.
  intros He Hdot.
  destruct (element_from_str_inv seg e He)
    as [[-> Hnb]|(n & ts & vs & -> & -> & Hn & Hnb & Hts & Hvs)]; simpl.
  - split; assumption.
  - split; [exact Hn|]. split; [exact Hnb|]. split.
    { intros H. apply Hdot, in_or_app. left. exact H. }
    split.
    + destruct ts; [congruence|]. inversion Hvs; subst. discriminate.
    + clear -Hvs. induction Hvs as [|t v ts vs Hv _ IH]; constructor; [|exact IH].
      exact (parse_u32_range t v Hv).
Qed.

Lemma elem_wellformed_roundtrip v e :
  elem_wellformed e ->
  element_from_str (display v (fmt_element e)) = Ok e /\ ~ In "."%char (display v (fmt_element e)).
Proof.
  destruct e as [[n]|[[n] ix]]; cbn [elem_wellformed if_name indexes name].
  - intros [Hnb Hdot]. unfold display. simpl. rewrite app_nil_r.
    split; [apply element_from_str_plain, Hnb|exact Hdot].
  - intros (Hn & Hnb & Hdot & Hix & Hr). rewrite display_element_indexed. simpl name.
    assert (H2 : Forall2 (fun t v => parse_u32 t = Some v) (map u32_to_str ix) ix).
    { clear -Hr. induction Hr as [|i ix Hi _ IH]; simpl; constructor; [|exact IH].
      apply parse_u32_to_str, Hi. }
    split.
    + apply element_from_str_indexed; auto. destruct ix; [congruence|discriminate].
    + intros Hin. apply in_app_or in Hin as [Hin|Hin]; [exact (Hdot Hin)|].
      apply in_concat_bracket in Hin as [Hc|[Hc|(t & Ht & Hin)]]; [discriminate|discriminate|].
      destruct (forall2_in_left _ _ _ _ H2 Ht) as [w Hw].
      apply (parse_u32_separators _ _ Hw), Hin.
Qed.

(** Parsing the text of non-empty elements, each of which reads back with
    no '.' in its text, gives them back. *)
Lemma path_text_parse es :
  es <> [] ->
  Forall2 (fun p e => element_from_str p = Ok e)
          (map (fun e => display (fun _ => []) (fmt_element e)) es) es ->
  Forall (fun p => ~ In "."%char p) (map (fun e => display (fun _ => []) (fmt_element e)) es) ->
  path_from_str (path_to_string (mkPath es)) = Ok (mkPath es).
Proof.
  destruct es as [|e es']; [congruence|]. intros _ H1 H2.
  unfold path_to_string. rewrite display_path_cons. unfold path_from_str.
  cbn [map] in H1, H2. inversion H2 as [|? ? Hx Hys]; subst.
  rewrite <- (map_map (fun e => display (fun _ => []) (fmt_element e)) (fun y => "."%char :: y)).
  rewrite split_dot_join by assumption.
  apply (proj2 (try_collect_ok _ _)) in H1. unfold str in *. rewrite H1. reflexivity.
Qed.

Lemma split_dot_length s : List.length (split_dot s) = S (count_occ ascii_dec s "."%char).
Proof.
  induction s as [|c r IH]; [reflexivity|]. simpl.
  destruct (Ascii.eqb_spec c "."%char) as [->|Hc].
  - simpl. rewrite IH. destruct (ascii_dec "."%char "."%char); [reflexivity|congruence].
  - pose proof (split_dot_nonempty r) as Hne.
    destruct (split_dot r) as [|p ps]; [congruence|]. simpl in *.
    rewrite IH. destruct (ascii_dec c "."%char); [congruence|reflexivity].
Qed.

(** A segment that does not parse makes the whole path fail. *)
Lemma path_err_of_segment s seg :
  In seg (split_dot s) -> (forall e, element_from_str seg <> Ok e) ->
  path_from_str s = Err PathParseErr.
Proof.
  intros Hin Hseg. unfold path_from_str.
  destruct (try_collect (split_dot s)) as [es|[]] eqn:E; [exfalso|reflexivity].
  apply try_collect_ok in E. destruct (forall2_in_left _ _ _ _ E Hin) as [e He].
  exact (Hseg e He).
Qed.

Lemma last_indexed (n : str) ts d :
  ts <> [] -> last (n ++ List.concat (map bracket ts)) d = "]"%char.
Proof.
  intros Hts. destruct (exists_last Hts) as (ts' & t & ->).
  rewrite map_app, concat_app. cbn [map List.concat]. rewrite app_nil_r.
  assert (Hb : bracket t = ("["%char :: t) ++ ["]"%char]) by reflexivity.
  rewrite Hb, !app_assoc. apply last_last.
Qed.

Lemma display_write_sep_first v sep it items :
  display v (write_sep true sep (it :: items)) =
  display v it ++ List.concat (map (fun it => sep ++ display v it) items).
Proof. cbn [write_sep]. rewrite app_nil_l, display_app, display_write_sep. reflexivity. Qed.

Lemma display_text v s : display v [PText s] = s.
Proof. unfold display. simpl. apply app_nil_r. Qed.

Lemma display_comparison v l c r :
  display v (fmt_comparison (mkComparison l c r)) =
  display v (fmt_operand l) ++ lit " " ++ comparator_as_str c ++ lit " " ++ display v (fmt_operand r).
Proof.
  unfold fmt_comparison. cbn [left cmp right]. rewrite !display_app.
  change (display v [PText (lit " "); PText (comparator_as_str c); PText (lit " ")])
    with (lit " " ++ (comparator_as_str c ++ (lit " " ++ []))).
  rewrite app_nil_r, <- !app_assoc. reflexivity.
Qed.

(** ** Paths *)

(** A parsed path is non-empty and every element is well-formed: names are
    free of '.', '[' and ']', an indexed field has a non-empty name and at
    least one index, and every index is a [u32]. *)
Theorem parsed_path_wellformed s p :
  path_from_str s = Ok p -> path p <> [] /\ Forall elem_wellformed (path p).
Proof.
  intros H. unfold path_from_str in H.
  destruct (try_collect (split_dot s)) as [es|] eqn:E; [|discriminate].
  injection H as <-. simpl. apply try_collect_ok in E. split.
  - intros ->. inversion E as [Hs|]. exact (split_dot_nonempty s (eq_sym Hs)).
  - pose proof (split_dot_no_dot s) as Hd. clear -E Hd.
    induction E as [|seg e segs es He _ IH]; constructor.
    + inversion Hd; subst. eapply elem_parsed_wellformed; eassumption.
    + inversion Hd; subst. auto.
Qed.

Lemma parsed_path_wellformed_witness :
  path (mkPath [EIndexedField (mkIndexedField (mkName (lit "foo")) [3%Z; 7%Z]); EName (mkName [])]) <> [] /\
  Forall elem_wellformed
    (path (mkPath [EIndexedField (mkIndexedField (mkName (lit "foo")) [3%Z; 7%Z]); EName (mkName [])])).
Proof.
  apply (parsed_path_wellformed (lit "foo[3][+07].")). vm_compute. reflexivity.
Defined.

(** Every non-empty path of well-formed elements is given back by parsing
    its text. *)
Theorem path_wellformed_roundtrip p :
  path p <> [] -> Forall elem_wellformed (path p) ->
  path_from_str (path_to_string p) = Ok p.
Proof.
  destruct p as [es]. simpl. intros Hne Hwf. apply path_text_parse; [exact Hne| |].
  - clear Hne. induction Hwf as [|e es He _ IH]; simpl; [constructor|].
    constructor; [exact (proj1 (elem_wellformed_roundtrip _ e He))|exact IH].
  - clear Hne. induction Hwf as [|e es He _ IH]; simpl; [constructor|].
    constructor; [exact (proj2 (elem_wellformed_roundtrip _ e He))|exact IH].
Qed.

Lemma path_wellformed_roundtrip_witness :
  path_from_str (path_to_string
    (mkPath [EIndexedField (mkIndexedField (mkName (lit "foo")) [4294967295%Z]); EName (mkName (lit "bar"))])) =
  Ok (mkPath [EIndexedField (mkIndexedField (mkName (lit "foo")) [4294967295%Z]); EName (mkName (lit "bar"))]).
Proof.
  apply path_wellformed_roundtrip.
  - discriminate.
  - repeat constructor; cbn; try discriminate; try lia; intuition discriminate.
Defined.

(** A parsed path has one element more than its text has dots. *)
Theorem parsed_path_length s p :
  path_from_str s = Ok p -> List.length (path p) = S (count_occ ascii_dec s "."%char).
Proof.
  intros H. unfold path_from_str in H.
  destruct (try_collect (split_dot s)) as [es|] eqn:E; [|discriminate].
  injection H as <-. simpl. apply try_collect_ok, Forall2_length in E.
  rewrite <- E. apply split_dot_length.
Qed.

Lemma parsed_path_length_witness :
  List.length (path (mkPath [EName (mkName (lit "a")); EName (mkName []); EName (mkName (lit "b"))])) =
  S (count_occ ascii_dec (lit "a..b") "."%char).
Proof. apply (parsed_path_length (lit "a..b")). vm_compute. reflexivity. Defined.

(** The text of two non-empty paths joined is their texts joined by '.'. *)
Theorem path_to_string_app es1 es2 :
  es1 <> [] -> es2 <> [] ->
  path_to_string (mkPath (es1 ++ es2)) =
  path_to_string (mkPath es1) ++ "."%char :: path_to_string (mkPath es2).
Proof.
  destruct es1 as [|e1 es1]; [congruence|]. destruct es2 as [|e2 es2]; [congruence|].
  intros _ _. unfold path_to_string. rewrite <- app_comm_cons, !display_path_cons.
  rewrite map_app, concat_app. cbn [map List.concat].
  rewrite <- !app_assoc. reflexivity.
Qed.

Lemma path_to_string_app_witness :
  path_to_string (mkPath ([EName (mkName (lit "a"))] ++ [EIndexedField (mkIndexedField (mkName (lit "b")) [2%Z])])) =
  path_to_string (mkPath [EName (mkName (lit "a"))]) ++ "."%char
    :: path_to_string (mkPath [EIndexedField (mkIndexedField (mkName (lit "b")) [2%Z])]).
Proof. apply path_to_string_app; discriminate. Defined.

(** A '.'-separated segment that starts with '[' makes parsing fail, as in
    "[0]" or "foo.[0]". *)
Theorem path_segment_open_bracket s seg :
  In seg (split_dot s) -> hd_error seg = Some "["%char -> path_from_str s = Err PathParseErr.
Proof.
  intros Hin Hhd. apply (path_err_of_segment s seg Hin). intros e He.
  destruct seg as [|c seg]; [discriminate|]. injection Hhd as Hc. subst c.
  destruct (element_from_str_inv _ e He)
    as [[_ [Hnb _]]|(n & ts & vs & _ & Hs & Hn & Hnb & _ & _)].
  - apply Hnb. left. reflexivity.
  - destruct n as [|c n]; [congruence|]. injection Hs as Hc _. subst c.
    apply (proj1 Hnb). left. reflexivity.
Qed.

Lemma path_segment_open_bracket_witness : path_from_str (lit "foo.[0]") = Err PathParseErr.
Proof.
  apply (path_segment_open_bracket (lit "foo.[0]") (lit "[0]")); vm_compute; auto.
Defined.

(** A segment that has a bracket but does not end with ']' makes parsing
    fail: text after the last index ("foo[0]bar"), or a bracket left open
    ("foo[9"). *)
Theorem path_segment_trailing_text s x c :
  In (x ++ [c]) (split_dot s) ->
  In "["%char (x ++ [c]) \/ In "]"%char (x ++ [c]) ->
  c <> "]"%char ->
  path_from_str s = Err PathParseErr.
Proof.
  intros Hin Hbr Hc. apply (path_err_of_segment s _ Hin). intros e He.
  destruct (element_from_str_inv _ e He)
    as [[_ [Ho Hcl]]|(n & ts & vs & _ & Hs & _ & _ & Hts & _)].
  - destruct Hbr; auto.
  - apply Hc. rewrite <- (last_last x c c), Hs. apply last_indexed, Hts.
Qed.

Lemma path_segment_trailing_text_witness : path_from_str (lit "foo[0]bar") = Err PathParseErr.
Proof.
  apply (path_segment_trailing_text (lit "foo[0]bar") (lit "foo[0]ba") "r"%char);
    [vm_compute; auto|left; vm_compute; auto|discriminate].
Defined.

(** A bracket whose contents (free of '.', '[' and ']') Rust's [u32] parser
    rejects makes parsing fail: "foo[]", "foo[-1]", "foo[x]",
    "foo[4294967296]". *)
Theorem path_rejected_index pre d post :
  no_brackets d -> ~ In "."%char d -> parse_u32 d = None ->
  path_from_str (pre ++ "["%char :: d ++ "]"%char :: post) = Err PathParseErr.
Proof.
  intros Hdnb Hdd Hnone.
  replace (pre ++ "["%char :: d ++ "]"%char :: post)
    with (pre ++ ("["%char :: d ++ ["]"%char]) ++ post)
    by (simpl; rewrite <- app_assoc; reflexivity).
  destruct (split_dot_contains pre ("["%char :: d ++ ["]"%char]) post) as (seg & x & y & Hin & Hseg).
  { intros [H|H]; [discriminate|]. apply in_app_or in H as [H|[H|[]]]; [exact (Hdd H)|discriminate]. }
  apply (path_err_of_segment _ seg Hin). intros e He.
  destruct (element_from_str_inv seg e He)
    as [[_ [Hnb _]]|(n & ts & vs & _ & Hs & Hn & Hnb & Hts & Hvs)].
  - apply Hnb. subst seg. apply in_or_app. right. left. reflexivity.
  - subst seg.
    replace (x ++ ("["%char :: d ++ ["]"%char]) ++ y) with (x ++ "["%char :: d ++ "]"%char :: y) in Hs
      by (simpl; rewrite <- app_assoc; reflexivity).
    symmetry in Hs. apply split_after in Hs as (x1 & _ & Hrest); [|exact (proj1 Hnb)].
    assert (Htsnb : Forall no_brackets ts).
    { clear -Hvs. induction Hvs as [|t v ts vs Hv _ IH]; constructor; [|exact IH].
      destruct (parse_u32_separators t v Hv) as [H1 [H2 _]]. split; assumption. }
    destruct (forall2_in_left _ _ _ _ Hvs (bracket_in_indexes ts x1 d y Htsnb Hdnb Hrest)) as [v Hv].
    congruence.
Qed.

Lemma path_rejected_index_witness : path_from_str (lit "foo[]") = Err PathParseErr.
Proof.
  apply (path_rejected_index (lit "foo") [] []);
    [split; intros []|intros []|reflexivity].
Defined.

(** ** Elements *)

(** Canonicalisation does not change the text: [Element::indexed_field], the
    tuple conversion and the conversion from an [IndexedField] all display
    as the name followed by "[i]" for each index, also when there is none. *)
Theorem element_constructors_display v n ix :
  let txt := name n ++ List.concat (map bracket (map u32_to_str ix)) in
  display v (fmt_element (element_indexed_field n ix)) = txt /\
  display v (fmt_element (element_from_tuple n ix)) = txt /\
  display v (fmt_element (element_from_indexed_field (mkIndexedField n ix))) = txt.
Proof.
  intros txt. subst txt.
  destruct ix as [|i ix].
  - unfold display. simpl. rewrite !app_nil_r. repeat split.
  - unfold element_indexed_field, element_from_tuple, element_from_indexed_field, indexed_field_from_tuple.
    cbn [indexes]. repeat split; apply display_element_indexed.
Qed.

(** ** Key conditions and [In] *)

(** The comparison methods of [Key] display as the key's path, the
    operator and the right operand, separated by spaces. *)
Theorem key_comparisons_display v p r :
  let t op := path_to_string p ++ lit " " ++ lit op ++ lit " " ++ display v (fmt_operand r) in
  display v (fmt_key_condition (Key_equal (key p) r)) = t "="%string /\
  display v (fmt_key_condition (Key_greater_than (key p) r)) = t ">"%string /\
  display v (fmt_key_condition (Key_greater_than_or_equal (key p) r)) = t ">="%string /\
  display v (fmt_key_condition (Key_less_than (key p) r)) = t "<"%string /\
  display v (fmt_key_condition (Key_less_than_or_equal (key p) r)) = t "<="%string.
Proof.
  intros t. subst t. unfold path_to_string. rewrite (display_path_vfmt (fun _ => []) v p).
  unfold fmt_key_condition, Key_equal, Key_greater_than, Key_greater_than_or_equal,
    Key_less_than, Key_less_than_or_equal, equal, greater_than, greater_than_or_equal,
    less_than, less_than_or_equal.
  cbn [kc_condition fmt_condition key_path key].
  rewrite !display_comparison. cbn [fmt_operand]. repeat split.
Qed.

(** The text of a comparison determines its comparator and its operands'
    texts when the left operand's text has no space: the text is split at
    its first two spaces, and no operator has a space. *)
Theorem comparison_display_determines v l1 c1 r1 l2 c2 r2 :
  ~ In " "%char (display v (fmt_operand l1)) ->
  ~ In " "%char (display v (fmt_operand l2)) ->
  display v (fmt_comparison (mkComparison l1 c1 r1)) =
    display v (fmt_comparison (mkComparison l2 c2 r2)) ->
  c1 = c2 /\ display v (fmt_operand l1) = display v (fmt_operand l2) /\
  display v (fmt_operand r1) = display v (fmt_operand r2).
Proof.
  intros H1 H2 H. rewrite !display_comparison in H.
  change (lit " ") with [" "%char] in H. cbn [app] in H.
  apply split_first in H as [Hl H]; [|exact H1|exact H2].
  assert (Hsp : forall c, ~ In " "%char (comparator_as_str c))
    by (intros c; destruct c; simpl; intuition discriminate).
  apply split_first in H as [Hc Hr]; [|apply Hsp|apply Hsp].
  split; [|split; [exact Hl|exact Hr]].
  destruct c1, c2; simpl in Hc; congruence.
Qed.

Lemma comparison_display_determines_witness :
  Ge = Ge /\
  display (fun _ => []) (fmt_operand (OPath (p_of "age"))) = display (fun _ => []) (fmt_operand (OPath (p_of "age"))) /\
  display (fun _ => []) (fmt_operand (OValue (Ref (lit "0")))) =
    display (fun _ => []) (fmt_operand (OValue (Ref (lit "0")))).
Proof.
  apply (comparison_display_determines (fun _ => []) (OPath (p_of "age")) Ge (OValue (Ref (lit "0")))
           (OPath (p_of "age")) Ge (OValue (Ref (lit "0"))));
    [vm_compute; intuition discriminate|vm_compute; intuition discriminate|reflexivity].
Defined.

(** [In] displays its operand, " IN (", its items separated by ',' and
    ")"; [In::new] accepts no item, and then the list is "()". *)
Theorem in_display v op its :
  display v (fmt_in (in_new op its)) =
  display v (fmt_operand op) ++ lit " IN (" ++
    match its with
    | [] => []
    | i :: rest => display v (fmt_operand i)
                     ++ List.concat (map (fun o => ","%char :: display v (fmt_operand o)) rest)
    end ++ lit ")".
Proof.
  unfold fmt_in, in_new. cbn [in_op items]. rewrite map_id.
  rewrite !display_app, !display_text.
  destruct its as [|i rest]; [reflexivity|].
  cbn [map]. rewrite display_write_sep_first, map_map. reflexivity.
Qed.

(** ** Math *)

(** Setting the source of a [Math] to its destination gives a different
    [Math] value that displays the same as leaving the source unset. *)
Theorem math_src_dst_same_display v dst num :
  builder_add (builder_src (math_builder dst) dst) num <> builder_add (math_builder dst) num /\
  display v (fmt_math (builder_add (builder_src (math_builder dst) dst) num)) =
    display v (fmt_math (builder_add (math_builder dst) num)) /\
  builder_sub (builder_src (math_builder dst) dst) num <> builder_sub (math_builder dst) num /\
  display v (fmt_math (builder_sub (builder_src (math_builder dst) dst) num)) =
    display v (fmt_math (builder_sub (math_builder dst) num)).
Proof.
  unfold builder_add, builder_sub, with_op, builder_src, math_builder. cbn [b_dst b_src].
  repeat split; try reflexivity; intros H; injection H; discriminate.
Qed.
